(** * XrayR: dispatcher and controller, shallow embedding

    Sources embedded here:
    - [api/apimodel.go]            the records exchanged with the panel API;
    - [controller] (controller.go) [compareUserList], [nodeInfoMonitor],
                                   [Close];
    - [app/mydispatcher/default.go] [cachedReader], [sniffer], [getLink],
                                   [Dispatch], [routedDispatch].

    Go integers are modelled as [Z], Go strings as [string], byte slices as
    [list byte], Go maps as stdpp [gmap], pointers that may be nil as
    [option].  Calls into the proxy core and into files of the repository
    that are not part of the embedded sources are parameters of the model
    (record fields or section variables); every such place is marked. *)

From Stdlib Require Import ZArith String List Lia.
From Stdlib.Strings Require Import Byte.
From stdpp Require Import base decidable countable strings list gmap fin_maps fin_sets pretty.

#[local] Set Warnings "-clear-no-such-hyp".

Local Open Scope string_scope.
Local Open Scope list_scope.
Local Open Scope Z_scope.

(** ** api/apimodel.go *)

Module api.

Record NodeInfo := {
  NodeType : string;
  NodeID : Z;
  NI_Port : Z;
  NI_SpeedLimit : Z;
  AlterID : Z;
  TransportProtocol : string;
  Host : string;
  Path : string;
  EnableTLS : bool;
  TLSType : string;
  EnableVless : bool
}.

Record UserInfo := {
  UID : Z;
  EmailTag : string;
  Email : string;
  Passwd : string;
  Port : Z;
  Method : string;
  SpeedLimit : Z;
  DeviceLimit : Z;
  Protocol : string;
  ProtocolParam : string;
  Obfs : string;
  ObfsParam : string;
  UUID : string
}.

#[global] Instance NodeInfo_eq_dec : EqDecision NodeInfo.
Proof. solve_decision. Defined.

#[global] Instance UserInfo_eq_dec : EqDecision UserInfo.
Proof. solve_decision. Defined.

(** [UserInfo] is used as a Go map key; the [Countable] instance needed by
    [gmap] goes through the tuple of the thirteen fields. *)
Definition UserInfo_to_tuple (u : UserInfo) :=
  (UID u, EmailTag u, Email u, Passwd u, Port u, Method u, SpeedLimit u,
   DeviceLimit u, Protocol u, ProtocolParam u, Obfs u, ObfsParam u, UUID u).

Definition UserInfo_of_tuple
  (t : Z * string * string * string * Z * string * Z * Z * string * string
       * string * string * string) : UserInfo :=
  let '(a, b, c, d, e, f, g, h, i, j, k, l, m) := t in
  Build_UserInfo a b c d e f g h i j k l m.

#[global] Instance UserInfo_countable : Countable UserInfo.
Proof.
  apply (inj_countable' UserInfo_to_tuple UserInfo_of_tuple).
  intros []. reflexivity.
Defined.

End api.

Import api.

(** ** controller: compareUserList *)

Module controller_diff.

(** The two index maps of the source, [map[api.UserInfo]byte]. *)
Abbreviation umap := (gmap UserInfo byte).

(** Loop 1: [for _, v := range *old { msrc[v] = 0; mall[v] = 0 }]. *)
Definition index_step (acc : umap * umap) (v : UserInfo) : umap * umap :=
  let '(msrc, mall) := acc in (<[v := x00]> msrc, <[v := x00]> mall).

Definition index_old (old : list UserInfo) : umap * umap :=
  foldl index_step (∅, ∅) old.

(** Loop 2: every element of [new] is stored into [mall]; when the length of
    the map does not change the element was already present and is appended
    to [set]. *)
Definition merge_step (acc : umap * list UserInfo) (v : UserInfo)
  : umap * list UserInfo :=
  let '(mall, set) := acc in
  let l := size mall in
  let mall' := <[v := x01]> mall in
  if decide (l ≠ size mall') then (mall', set) else (mall', set ++ [v]).

Definition merge_new (new : list UserInfo) (mall : umap)
  : umap * list UserInfo :=
  foldl merge_step (mall, []) new.

(** Loop 3: [for _, v := range set { delete(mall, v) }]. *)
Definition drop_common (set : list UserInfo) (mall : umap) : umap :=
  foldl (λ m v, delete v m) mall set.

(** Loop 4: [for v := range mall], splitting on membership in [msrc].  Go
    leaves the iteration order of a map unspecified, so the loop is run over
    an explicit enumeration [ks] of the keys. *)
Definition split_step (msrc : umap) (acc : list UserInfo * list UserInfo)
  (v : UserInfo) : list UserInfo * list UserInfo :=
  let '(deleted, added) := acc in
  match msrc !! v with
  | Some _ => (deleted ++ [v], added)
  | None => (deleted, added ++ [v])
  end.

Definition split_changes (msrc : umap) (ks : list UserInfo)
  : list UserInfo * list UserInfo :=
  foldl (split_step msrc) ([], []) ks.

(** An iteration order for a map: any enumeration of its keys. *)
Definition keys (m : umap) : list UserInfo := (map_to_list m).*1.

Definition range_order (order : umap → list UserInfo) : Prop :=
  ∀ m, order m ≡ₚ keys m.

(** [compareUserList], for the iteration order [order] of loop 4. *)
Definition compareUserList_in_order (order : umap → list UserInfo)
  (old new : list UserInfo) : list UserInfo * list UserInfo :=
  let '(msrc, mall) := index_old old in
  let '(mall, set) := merge_new new mall in
  let mall := drop_common set mall in
  split_changes msrc (order mall).

(** [compareUserList] with the enumeration stdpp fixes for the map. *)
Definition compareUserList (old new : list UserInfo)
  : list UserInfo * list UserInfo :=
  compareUserList_in_order keys old new.

End controller_diff.

(** ** Errors

    Go [error] values.  [common.ErrNoClue] is a package-level sentinel that
    the sniff loop compares by identity; errors built with [newError] carry
    their message; a cancelled context reports [context.Canceled] or
    [context.DeadlineExceeded]. *)

Inductive ctx_error := Canceled | DeadlineExceeded.

Inductive error :=
| ErrNoClue
| newError (msg : string)
| ctxError (e : ctx_error)
| apiError (msg : string).

#[global] Instance ctx_error_eq_dec : EqDecision ctx_error.
Proof. solve_decision. Defined.

#[global] Instance error_eq_dec : EqDecision error.
Proof. solve_decision. Defined.

Definition error_string (e : error) : string :=
  match e with
  | ErrNoClue => "not enough information for making a decision"
  | newError msg => msg
  | ctxError Canceled => "context canceled"
  | ctxError DeadlineExceeded => "context deadline exceeded"
  | apiError msg => msg
  end.

(** [errSniffingTimeout] is declared in default.go; [errUnknownContent]
    belongs to the sniffer file of the package and is used by [sniffer]. *)
Definition errSniffingTimeout : error := newError "timeout on sniffing".
Definition errUnknownContent : error := newError "unknown content".

(** The message of the Go runtime panic on a nil pointer dereference. *)
Definition nil_dereference : string :=
  "runtime error: invalid memory address or nil pointer dereference".

(** ** buf and pipe (proxy core), as far as [cachedReader] uses them *)

Module buf.

(** Capacity of a [buf.Buffer]. *)
Definition Size : nat := Z.to_nat 8192.

(** A [Buffer] is modelled by its contents, the bytes between its start and
    end marks; a [MultiBuffer] is a slice of buffers, [nil] being [[]]. *)
Abbreviation Buffer := (list byte).
Abbreviation MultiBuffer := (list Buffer).

Definition Buffer_IsEmpty (b : Buffer) : bool := Nat.eqb (length b) 0.

(** [IsFull] of a buffer allocated with [buf.New]: the end mark has reached
    the capacity. *)
Definition Buffer_IsFull (b : Buffer) : bool := Nat.eqb (length b) Size.

(** [MultiBuffer.IsEmpty]: no buffer of the slice holds a byte. *)
Definition IsEmpty (mb : MultiBuffer) : bool := forallb Buffer_IsEmpty mb.

(** [MergeMulti(dest, src)] appends the buffers of [src] to [dest]. *)
Definition MergeMulti (dest src : MultiBuffer) : MultiBuffer := dest ++ src.

(** All bytes held by a multi-buffer, in order. *)
Definition Bytes (mb : MultiBuffer) : list byte := concat mb.

(** [MultiBuffer.Copy(b)] with [room] bytes left in [b]: buffers are copied
    one after the other and the loop stops at the first buffer that does not
    fit entirely.  The result is the written prefix of [b]; its length is
    the count [Copy] returns. *)
Fixpoint Copy (mb : MultiBuffer) (room : nat) : list byte :=
  match mb with
  | [] => []
  | bb :: rest =>
      let nBytes := Nat.min room (length bb) in
      take nBytes bb ++
      (if Nat.ltb nBytes (length bb) then [] else Copy rest (room - nBytes)%nat)
  end.

End buf.

Module pipe.

(** A [pipe.Reader] is modelled by what its successive reads will deliver:
    one multi-buffer per read, an empty one standing for a read that finds
    nothing before its timeout. *)
Abbreviation Reader := (list buf.MultiBuffer).

(** [ReadMultiBufferTimeout]: the next delivery, or nothing when the timeout
    strikes or the pipe has ended (the error is dropped by the only caller
    that is modelled with it, [Cache]). *)
Definition ReadMultiBufferTimeout (r : Reader) : buf.MultiBuffer * Reader :=
  match r with
  | [] => ([], [])
  | mb :: r' => (mb, r')
  end.

(** [ReadMultiBuffer] blocks until data is there: empty deliveries are
    waited through; [None] is the end of the pipe ([io.EOF]). *)
Fixpoint ReadMultiBuffer (r : Reader) : option buf.MultiBuffer * Reader :=
  match r with
  | [] => (None, [])
  | mb :: r' => if buf.IsEmpty mb then ReadMultiBuffer r' else (Some mb, r')
  end.

(** Everything the reader will ever emit. *)
Definition stream (r : Reader) : list byte := concat (map buf.Bytes r).

End pipe.

(** ** mydispatcher: cachedReader *)

Module cached.

Record cachedReader := {
  reader : pipe.Reader;
  cache : buf.MultiBuffer
}.

(** [Cache(b)]: one timed read of the underlying reader, merged into the
    cache when it brought something; then [b] is cleared, extended to
    [buf.Size], filled by [r.cache.Copy] and resized to the copied count.
    The result is the new reader state and the contents of [b]. *)
Definition Cache (r : cachedReader) : cachedReader * buf.Buffer :=
  let '(mb, rd) := pipe.ReadMultiBufferTimeout (reader r) in
  let cache' :=
    if negb (buf.IsEmpty mb) then buf.MergeMulti (cache r) mb else cache r in
  let rawBytes := buf.Size in
  let b := buf.Copy cache' rawBytes in
  ({| reader := rd; cache := cache' |}, b).

(** [readInternal]: hands over the whole cache when it holds data. *)
Definition readInternal (r : cachedReader)
  : option buf.MultiBuffer * cachedReader :=
  if negb (buf.IsEmpty (cache r))
  then (Some (cache r), {| reader := reader r; cache := [] |})
  else (None, r).

(** [ReadMultiBuffer]: the cache first, the underlying reader otherwise. *)
Definition ReadMultiBuffer (r : cachedReader)
  : option buf.MultiBuffer * cachedReader :=
  match readInternal r with
  | (Some mb, r') => (Some mb, r')
  | (None, r') =>
      let '(mb, rd) := pipe.ReadMultiBuffer (reader r') in
      (mb, {| reader := rd; cache := cache r' |})
  end.

(** [n] successive [Cache] calls; the scratch contents of each are kept. *)
Fixpoint Cache_n (n : nat) (r : cachedReader)
  : cachedReader * list buf.Buffer :=
  match n with
  | O => (r, [])
  | S n =>
      let '(r1, b) := Cache r in
      let '(r2, bs) := Cache_n n r1 in
      (r2, b :: bs)
  end.

(** Reading until the end of the stream: the multi-buffers returned by
    successive [ReadMultiBuffer] calls, up to the first [io.EOF].  [fuel]
    bounds the number of calls. *)
Fixpoint ReadAll (fuel : nat) (r : cachedReader)
  : option (list buf.MultiBuffer) :=
  match fuel with
  | O => None
  | S fuel =>
      match ReadMultiBuffer r with
      | (None, _) => Some []
      | (Some mb, r') =>
          match ReadAll fuel r' with
          | Some mbs => Some (mb :: mbs)
          | None => None
          end
      end
  end.

(** The deliveries that a blocking read of the underlying reader returns:
    the ones that hold data. *)
Definition deliveries (rd : pipe.Reader) : list buf.MultiBuffer :=
  filter (λ mb, buf.IsEmpty mb = false) rd.

(** A reader freshly wrapped by [Dispatch]: [&cachedReader{reader: ...}]. *)
Definition wrap (rd : pipe.Reader) : cachedReader :=
  {| reader := rd; cache := [] |}.

End cached.

(** ** mydispatcher: the sniff loop *)

Module sniff.

(** [SniffResult] is an interface with the two methods [Protocol] and
    [Domain]; a value is modelled by what they return. *)
Record SniffResult := {
  Protocol : string;
  Domain : string
}.

(** What [Sniffer.Sniff] hands back: a result (possibly nil) and an error
    (possibly nil). *)
Definition SniffReturn : Type := option SniffResult * option error.

(** The contract of [Sniffer.Sniff], which lives outside the embedded
    sources: it returns a result with a nil error, or no result with
    [common.ErrNoClue] (more bytes are needed) or [errUnknownContent]. *)
Definition Sniff_contract (ret : SniffReturn) : Prop :=
  (∃ res, ret = (Some res, None))
  ∨ ret = (None, Some ErrNoClue)
  ∨ ret = (None, Some errUnknownContent).

(** Calls made by the loop, in order. *)
Inductive Event :=
| EvCache (payload : buf.Buffer)
| EvSniff (payload : list byte).


Section sniffer.

(** The sniffer object: its state type, [NewSniffer()], and [Sniff], which
    may update the state (the real one narrows its list of classifiers). *)
Context {SnifferState : Type}.
Variable NewSniffer : SnifferState.
Variable Sniff : SnifferState → list byte → SniffReturn * SnifferState.

(** The context as the loop sees it: [ctx_err k] is [ctx.Err()] at the
    [k]-th evaluation of the [select] (counted from 0), [None] while
    [ctx.Done()] is not ready. *)
Variable ctx_err : nat → option ctx_error.

(** One run of the [for] loop body per unit of [fuel]; [None] only when the
    fuel runs out.  [poll] counts the evaluations of [select]. *)
Fixpoint sniffer_loop (fuel : nat) (poll : nat) (totalAttempt : Z)
  (cReader : cached.cachedReader) (st : SnifferState)
  : option (SniffReturn * cached.cachedReader * list Event) :=
  match fuel with
  | O => None
  | S fuel =>
      match ctx_err poll with
      | Some e => Some ((None, Some (ctxError e)), cReader, [])
      | None =>
          let totalAttempt := totalAttempt + 1 in
          if totalAttempt >? 2 then
            Some ((None, Some errSniffingTimeout), cReader, [])
          else
            let '(cReader, payload) := cached.Cache cReader in
            let after_sniff (st : SnifferState) (evs : list Event) :=
              if buf.Buffer_IsFull payload then
                Some ((None, Some errUnknownContent), cReader, evs)
              else
                match sniffer_loop fuel (S poll) totalAttempt cReader st with
                | Some (ret, cReader, evs') => Some (ret, cReader, evs ++ evs')
                | None => None
                end in
            if negb (buf.Buffer_IsEmpty payload) then
              let '((result, err), st) := Sniff st payload in
              if decide (err ≠ Some ErrNoClue) then
                Some ((result, err), cReader, [EvCache payload; EvSniff payload])
              else after_sniff st [EvCache payload; EvSniff payload]
            else after_sniff st [EvCache payload]
      end
  end.

(** [sniffer(ctx, cReader)]. *)
Definition sniffer (fuel : nat) (cReader : cached.cachedReader)
  : option (SniffReturn * cached.cachedReader * list Event) :=
  sniffer_loop fuel 0 0 cReader NewSniffer.


End sniffer.



(** A sniffer that never has enough bytes, and a context that is never
    cancelled. *)
Definition Sniff_noclue (st : unit) (p : list byte) : SniffReturn * unit :=
  ((None, Some ErrNoClue), st).

Definition ctx_live (k : nat) : option ctx_error := None.

End sniff.

(** ** mydispatcher: links, Dispatch and routedDispatch *)

Module dispatcher.

(** *** Values carried by the context (proxy core types) *)

Inductive Network := Network_Unknown | Network_TCP | Network_UDP | Network_UNIX.

#[global] Instance Network_eq_dec : EqDecision Network.
Proof. solve_decision. Defined.

Record Destination := {
  Address : string;
  DPort : Z;
  DNetwork : Network
}.

(** [Destination.IsValid]: the network is known. *)
Definition IsValid (d : Destination) : bool :=
  if decide (DNetwork d = Network_Unknown) then false else true.

(** [Destination.String]: network prefix, address, port. *)
Definition Destination_String (d : Destination) : string :=
  (match DNetwork d with
   | Network_TCP => "tcp:"
   | Network_UDP => "udp:"
   | Network_UNIX => "unix:"
   | Network_Unknown => "unknown:"
   end +:+ Address d +:+ ":" +:+ pretty (DPort d))%string.

(** [protocol.MemoryUser], the fields the dispatcher reads. *)
Record MemoryUser := {
  Email : string;
  Level : Z
}.

(** [session.Inbound]; [Source] is the text of [Source.Address.IP()],
    [User] is a pointer and may be nil. *)
Record Inbound := {
  Source : string;
  Tag : string;
  User : option MemoryUser
}.

Record SniffingRequest := {
  ExcludeForDomain : list string;
  OverrideDestinationForProtocol : list string;
  Enabled : bool
}.

Record Content := {
  CProtocol : string;
  CSniffingRequest : SniffingRequest;
  SkipRoutePick : bool
}.

(** [new(session.Content)]: the zero value. *)
Definition new_Content : Content :=
  {| CProtocol := "";
     CSniffingRequest :=
       {| ExcludeForDomain := []; OverrideDestinationForProtocol := [];
          Enabled := false |};
     SkipRoutePick := false |}.

(** [log.AccessMessage], the fields that matter here. *)
Record AccessMessage := {
  From : string;
  To : string;
  Detour : string
}.

(** What the context chain holds: the lookups [session.InboundFromContext],
    [session.OutboundFromContext], [session.ContentFromContext] and
    [log.AccessMessageFromContext] each return a pointer or nil. *)
Record Context := {
  inbound : option Inbound;
  outboundTarget : option Destination;
  content : option Content;
  accessMessage : option AccessMessage
}.

Definition ContextWithOutbound (ctx : Context) (target : Destination) : Context :=
  {| inbound := inbound ctx; outboundTarget := Some target;
     content := content ctx; accessMessage := accessMessage ctx |}.

Definition ContextWithContent (ctx : Context) (c : Content) : Context :=
  {| inbound := inbound ctx; outboundTarget := outboundTarget ctx;
     content := Some c; accessMessage := accessMessage ctx |}.

(** *** Pipes and links *)

(** The two pipes [getLink] creates, in creation order. *)
Inductive Pipe := uplink | downlink.

#[global] Instance Pipe_eq_dec : EqDecision Pipe.
Proof. solve_decision. Defined.

(** A bucket handed out by the limiter; a counter of the stats manager. *)
Record Bucket := { rate : Z }.
Record Counter := { counter_name : string }.

(** Readers and writers as the dispatcher builds them: the pipe ends and
    the writer wrappers of [getLink]. *)
Inductive LinkReader :=
| PipeReader (p : Pipe).

Inductive LinkWriter :=
| PipeWriter (p : Pipe)
| RateWriter (w : LinkWriter) (bucket : option Bucket)
| SizeStatWriter (c : Counter) (w : LinkWriter).

#[global] Instance Bucket_eq_dec : EqDecision Bucket.
Proof. solve_decision. Defined.
#[global] Instance Counter_eq_dec : EqDecision Counter.
Proof. solve_decision. Defined.
#[global] Instance LinkReader_eq_dec : EqDecision LinkReader.
Proof. solve_decision. Defined.
#[global] Instance LinkWriter_eq_dec : EqDecision LinkWriter.
Proof. solve_decision. Defined.

(** [transport.Link]. *)
Record Link := {
  Reader : LinkReader;
  Writer : LinkWriter
}.

(** *** Collaborators *)

Record Policy := {
  UserUplink : bool;
  UserDownlink : bool
}.

(** [outbound.Handler], known by its tag. *)
Record Handler := { HTag : string }.

(** The features the dispatcher holds: rule manager, limiter, policy and
    stats managers, router (a nil interface when absent) and outbound
    handler manager.  Within one call each is asked at most once per
    argument, so each is a function of its arguments. *)
Record Features := {
  Detect : string → string → string → bool;
  GetUserBucket : string → string → string → option Bucket * bool * bool;
  ForLevel : Z → Policy;
  GetOrRegisterCounter : string → option Counter;
  router : option (Context → string + error);
  GetHandler : string → option Handler;
  GetDefaultHandler : option Handler
}.

(** The task [Dispatch] starts with [go]: plain routed dispatch, or the
    closure that wraps the outbound reader in a [cachedReader], runs
    [sniffer] and then calls [routedDispatch]. *)
Inductive Task :=
| RoutedDispatch (ctx : Context) (link : Link) (destination : Destination)
| SniffThenDispatch (ctx : Context) (link : Link) (destination : Destination)
    (request : SniffingRequest).

(** Observable actions, in program order. *)
Inductive Event :=
| EvDetect (tag destination email : string) (hit : bool)
| EvLog (msg : string)
| EvPipeNew (p : Pipe)
| EvGetUserBucket (tag email ip : string) (bucket : option Bucket)
    (ok reject : bool)
| EvClose (w : LinkWriter)
| EvInterrupt (r : LinkReader)
| EvGo (t : Task)
| EvRecord (m : AccessMessage)
| EvHandlerDispatch (h : Handler) (ctx : Context) (link : Link).

(** How a call ends: a return with the link pointer and the error, or a Go
    panic. *)
Inductive Outcome :=
| Return (link : option Link) (err : option error)
| Panic (msg : string).

(** *** getLink *)

Definition getLink (d : Features) (ctx : Context) : Link * Link * list Event :=
  let uplinkReader := PipeReader uplink in
  let uplinkWriter := PipeWriter uplink in
  let downlinkReader := PipeReader downlink in
  let downlinkWriter := PipeWriter downlink in
  let inboundLink := {| Reader := downlinkReader; Writer := uplinkWriter |} in
  let outboundLink := {| Reader := uplinkReader; Writer := downlinkWriter |} in
  let pipes := [EvPipeNew uplink; EvPipeNew downlink] in
  let sessionInbound := inbound ctx in
  let user :=
    match sessionInbound with
    | Some si => User si
    | None => None
    end in
  match sessionInbound, user with
  | Some sessionInbound, Some user =>
      if Nat.ltb 0 (String.length (Email user)) then
        (* Speed Limit and Device Limit *)
        let '(bucket, ok, reject) :=
          GetUserBucket d (Tag sessionInbound) (Email user)
                        (Source sessionInbound) in
        let asked :=
          [EvGetUserBucket (Tag sessionInbound) (Email user)
                           (Source sessionInbound) bucket ok reject] in
        let torn :=
          if reject then
            [EvLog ("Devices reach the limit: " +:+ Email user);
             EvClose (Writer outboundLink);
             EvClose (Writer inboundLink);
             EvInterrupt (Reader outboundLink);
             EvInterrupt (Reader inboundLink)]
          else [] in
        let inW :=
          if ok then RateWriter (Writer inboundLink) bucket
          else Writer inboundLink in
        let outW :=
          if ok then RateWriter (Writer outboundLink) bucket
          else Writer outboundLink in
        let p := ForLevel d (Level user) in
        let inW :=
          if UserUplink p then
            match GetOrRegisterCounter d
                    ("user>>>" +:+ Email user +:+ ">>>traffic>>>uplink") with
            | Some c => SizeStatWriter c inW
            | None => inW
            end
          else inW in
        let outW :=
          if UserDownlink p then
            match GetOrRegisterCounter d
                    ("user>>>" +:+ Email user +:+ ">>>traffic>>>downlink") with
            | Some c => SizeStatWriter c outW
            | None => outW
            end
          else outW in
        ({| Reader := Reader inboundLink; Writer := inW |},
         {| Reader := Reader outboundLink; Writer := outW |},
         pipes ++ asked ++ torn)
      else (inboundLink, outboundLink, pipes)
  | _, _ => (inboundLink, outboundLink, pipes)
  end.

(** *** Dispatch *)

Definition errRejectedByRule : error := newError "destination is reject by rule".

Definition Dispatch (d : Features) (ctx : Context) (destination : Destination)
  : Outcome * list Event :=
  if negb (IsValid destination) then
    (Panic "Dispatcher: Invalid destination.", [])
  else
    (* Check if domain and protocol hit the rule *)
    match inbound ctx with
    | None => (Panic nil_dereference, [])
    | Some sessionInbound =>
        match User sessionInbound with
        | None => (Panic nil_dereference, [])
        | Some user =>
            let hit := Detect d (Tag sessionInbound)
                         (Destination_String destination) (Email user) in
            let asked := [EvDetect (Tag sessionInbound)
                            (Destination_String destination) (Email user) hit] in
            if hit then
              (Return None (Some errRejectedByRule),
               asked ++
               [EvLog ("User " +:+ Email user +:+ " access " +:+
                       Destination_String destination +:+ " reject by rule")])
            else
              let ctx := ContextWithOutbound ctx destination in
              let '(inbound, outbound, built) := getLink d ctx in
              let '(content, ctx) :=
                match content ctx with
                | Some c => (c, ctx)
                | None => (new_Content, ContextWithContent ctx new_Content)
                end in
              let sniffingRequest := CSniffingRequest content in
              let task :=
                if bool_decide (DNetwork destination ≠ Network_TCP)
                   || negb (Enabled sniffingRequest)
                then RoutedDispatch ctx outbound destination
                else SniffThenDispatch ctx outbound destination sniffingRequest in
              (Return (Some inbound) None, asked ++ built ++ [EvGo task])
        end
    end.

(** *** routedDispatch *)

(** [routing_session.AsRoutingContext(ctx).GetInboundTag()]. *)
Definition GetInboundTag (ctx : Context) : string :=
  match inbound ctx with
  | Some i => Tag i
  | None => ""
  end.

(** The route pick at the head of [routedDispatch]: the handler found for
    the picked route (if any), the flag [isPickRoute], and the log lines. *)
Definition pickRoute (d : Features) (ctx : Context) (destination : Destination)
  : option Handler * bool * list Event :=
  let skipRoutePick :=
    match content ctx with
    | Some content => SkipRoutePick content
    | None => false
    end in
  match router d with
  | Some PickRoute =>
      if negb skipRoutePick then
        match PickRoute ctx with
        | inl outTag =>
            match GetHandler d outTag with
            | Some h =>
                (Some h, true,
                 [EvLog ("taking detour [" +:+ outTag +:+ "] for [" +:+
                         Destination_String destination +:+ "]")])
            | None =>
                (None, true, [EvLog ("non existing outTag: " +:+ outTag)])
            end
        | inr _ =>
            (None, false,
             [EvLog ("default route for " +:+ Destination_String destination)])
        end
      else (None, false, [])
  | None => (None, false, [])
  end.

(** The [Detour] text for a handler tag. *)
Definition detour (isPickRoute : bool) (inTag tag : string) : string :=
  if isPickRoute then
    if negb (String.eqb inTag "") then inTag +:+ " -> " +:+ tag else tag
  else
    if negb (String.eqb inTag "") then inTag +:+ " >> " +:+ tag else tag.

Definition routedDispatch (d : Features) (ctx : Context) (link : Link)
  (destination : Destination) : list Event :=
  let inTag := GetInboundTag ctx in
  let '(handler, isPickRoute, picked) := pickRoute d ctx destination in
  let handler :=
    match handler with
    | None => GetDefaultHandler d
    | Some h => Some h
    end in
  match handler with
  | None =>
      picked ++
      [EvLog "default outbound handler not exist";
       EvClose (Writer link);
       EvInterrupt (Reader link)]
  | Some handler =>
      let logged :=
        match accessMessage ctx with
        | Some accessMessage =>
            let tag := HTag handler in
            let accessMessage :=
              if negb (String.eqb tag "") then
                {| From := From accessMessage; To := To accessMessage;
                   Detour := detour isPickRoute inTag tag |}
              else accessMessage in
            [EvRecord accessMessage]
        | None => []
        end in
      picked ++ logged ++ [EvHandlerDispatch handler ctx link]
  end.

(** *** Observations on a run of [routedDispatch] *)

(** The handler the link is handed to. *)
Definition dispatched_handler (evs : list Event) : option Handler :=
  head (omap (λ e, match e with EvHandlerDispatch h _ _ => Some h | _ => None end) evs).

(** The [Detour] of the access message given to [log.Record]. *)
Definition recorded_detour (evs : list Event) : option string :=
  head (omap (λ e, match e with EvRecord m => Some (Detour m) | _ => None end) evs).

(** The handler registered for the route the router picks, when the router
    is consulted, picks a route and the outbound manager knows its tag. *)
Definition route_handler (d : Features) (ctx : Context) (destination : Destination)
  : option Handler := (pickRoute d ctx destination).1.1.

(** Whether the router was consulted and picked a route. *)
Definition route_picked (d : Features) (ctx : Context) (destination : Destination)
  : bool := (pickRoute d ctx destination).1.2.

(** *** Sample collaborators, contexts and destinations *)

Definition direct : Handler := {| HTag := "direct" |}.

(** No rule, no limit, no stats, no router; one default outbound. *)
Definition plain_features : Features := {|
  Detect := λ _ _ _, false;
  GetUserBucket := λ _ _ _, (None, false, false);
  ForLevel := λ _, {| UserUplink := false; UserDownlink := false |};
  GetOrRegisterCounter := λ _, None;
  router := None;
  GetHandler := λ _, None;
  GetDefaultHandler := Some direct
|}.

(** The limiter refuses every device. *)
Definition limiting_features : Features := {|
  Detect := λ _ _ _, false;
  GetUserBucket := λ _ _ _, (None, false, true);
  ForLevel := ForLevel plain_features;
  GetOrRegisterCounter := GetOrRegisterCounter plain_features;
  router := None;
  GetHandler := GetHandler plain_features;
  GetDefaultHandler := GetDefaultHandler plain_features
|}.

(** A rule that matches the destination [ads.example:80]. *)
Definition ruled_features : Features := {|
  Detect := λ _ dest _, String.eqb dest "tcp:ads.example:80";
  GetUserBucket := GetUserBucket plain_features;
  ForLevel := ForLevel plain_features;
  GetOrRegisterCounter := GetOrRegisterCounter plain_features;
  router := None;
  GetHandler := GetHandler plain_features;
  GetDefaultHandler := GetDefaultHandler plain_features
|}.

(** The router picks the tag ["missing"], for which no handler exists. *)
Definition stale_route_features : Features := {|
  Detect := Detect plain_features;
  GetUserBucket := GetUserBucket plain_features;
  ForLevel := ForLevel plain_features;
  GetOrRegisterCounter := GetOrRegisterCounter plain_features;
  router := Some (λ _, inl "missing");
  GetHandler := λ _, None;
  GetDefaultHandler := Some direct
|}.

(** The router picks ["proxy"], which the outbound manager knows. *)
Definition routed_features : Features := {|
  Detect := Detect plain_features;
  GetUserBucket := GetUserBucket plain_features;
  ForLevel := ForLevel plain_features;
  GetOrRegisterCounter := GetOrRegisterCounter plain_features;
  router := Some (λ _, inl "proxy");
  GetHandler := λ tag, if String.eqb tag "proxy" then Some {| HTag := "proxy" |} else None;
  GetDefaultHandler := Some direct
|}.

Definition user_ux : MemoryUser := {| Email := "u@x"; Level := 0 |}.

Definition ctx_user : Context := {|
  inbound := Some {| Source := "1.1.1.1"; Tag := "V2ray_443"; User := Some user_ux |};
  outboundTarget := None;
  content := None;
  accessMessage := Some {| From := "1.1.1.1"; To := "tcp:ads.example:80"; Detour := "" |}
|}.

(** An inbound session without a user. *)
Definition ctx_anonymous : Context := {|
  inbound := Some {| Source := "1.1.1.1"; Tag := "V2ray_443"; User := None |};
  outboundTarget := None;
  content := None;
  accessMessage := None
|}.

Definition dest_ads : Destination :=
  {| Address := "ads.example"; DPort := 80; DNetwork := Network_TCP |}.

Definition sample_link : Link :=
  {| Reader := PipeReader uplink; Writer := PipeWriter downlink |}.

End dispatcher.

(** ** controller *)

Module controller.

Record CertConfig := {
  CertMode : string;
  CertDomain : string;
  CertEmail : string;
  Provider : string;
  DNSEnv : list (string * string)
}.

Record Config := {
  ListenIP : string;
  UpdatePeriodic : Z;
  Cert : CertConfig
}.

(** A [task.Periodic] as [Close] sees it: what its own [Close] returns. *)
Record Periodic := { close_error : option error }.

(** The parts of the package and of the proxy core that the embedded
    functions call but that are defined elsewhere: the state they act on
    ([Node]: inbound and outbound handlers, users, limiter records) and the
    operations themselves.  Each operation returns its [error] result and
    the new state. *)
Record Core := {
  Node : Type;
  InboundConfig : Type;
  OutboundConfig : Type;
  ProtocolUser : Type;
  InboundBuilder : string → NodeInfo → CertConfig → InboundConfig + error;
  OutboundBuilder : NodeInfo → OutboundConfig + error;
  addInbound : InboundConfig → Node → option error * Node;
  addOutbound : OutboundConfig → Node → option error * Node;
  removeInbound : string → Node → option error * Node;
  removeOutbound : string → Node → option error * Node;
  addUsers : list ProtocolUser → string → Node → option error * Node;
  removeUsers : list string → string → Node → option error * Node;
  AddInboundLimiter : string → Z → list UserInfo → Node → option error * Node;
  DeleteInboundLimiter : string → Node → option error * Node;
  buildVlessUser : list UserInfo → list ProtocolUser;
  buildVmessUser : list UserInfo → Z → list ProtocolUser;
  buildTrojanUser : list UserInfo → list ProtocolUser;
  buildSSUser : list UserInfo → list ProtocolUser
}.

(** The [Controller] struct once [Start] has run: the cached pointers are
    set.  [server] stands for what [c.server] and the dispatcher's limiter
    hold. *)
Record Controller (K : Core) := {
  server : Node K;
  config : Config;
  nodeInfo : NodeInfo;
  userList : list UserInfo;
  nodeInfoMonitorPeriodic : option Periodic;
  userReportPeriodic : option Periodic
}.

Arguments server {K}.
Arguments config {K}.
Arguments nodeInfo {K}.
Arguments userList {K}.
Arguments nodeInfoMonitorPeriodic {K}.
Arguments userReportPeriodic {K}.

(** What the outside world answers during one tick: the panel API, and the
    certificate tool ([legocmd.New] and [RenewCert]). *)
Record Remote := {
  GetNodeInfo : NodeInfo + error;
  GetUserList : list UserInfo + error;
  lego_New : option error;
  RenewCert : option error
}.

(** [fmt.Sprintf("%s_%d", nodeInfo.NodeType, nodeInfo.Port)]. *)
Definition tag_of (n : NodeInfo) : string :=
  (NodeType n +:+ "_" +:+ pretty (NI_Port n))%string.

(** *** Close *)

Inductive PeriodicName := NodeInfoMonitor | UserReport.

Inductive CloseEvent :=
| EvPeriodicClose (which : PeriodicName)
| EvLogPanicf (msg : string).

Inductive CloseOutcome :=
| Returned (err : option error)
| Panicked (msg : string).

(** [Close].  [log.Panicf] prints and then panics.  Both guards test
    [nodeInfoMonitorPeriodic], as in the source; calling [Close] through a
    nil [userReportPeriodic] dereferences nil. *)
Definition Close {K} (c : Controller K) : CloseOutcome * list CloseEvent :=
  let first : (string + unit) * list CloseEvent :=
    match nodeInfoMonitorPeriodic c with
    | Some p =>
        match close_error p with
        | Some err =>
            let msg := ("node info periodic close failed: " +:+ error_string err)%string in
            (inl msg, [EvPeriodicClose NodeInfoMonitor; EvLogPanicf msg])
        | None => (inr tt, [EvPeriodicClose NodeInfoMonitor])
        end
    | None => (inr tt, [])
    end in
  match first with
  | (inl msg, evs) => (Panicked msg, evs)
  | (inr _, evs) =>
      match nodeInfoMonitorPeriodic c with
      | Some _ =>
          match userReportPeriodic c with
          | None => (Panicked nil_dereference, evs)
          | Some p =>
              match close_error p with
              | Some err =>
                  let msg := ("user report periodic close failed: " +:+ error_string err)%string in
                  (Panicked msg, evs ++ [EvPeriodicClose UserReport; EvLogPanicf msg])
              | None => (Returned None, evs ++ [EvPeriodicClose UserReport])
              end
          end
      | None => (Returned None, evs)
      end
  end.

(** *** The tick monad

    A tick threads the controller, appends to the log, and may leave early
    with [return err]. *)

Section tick.

Context {K : Core}.

Definition M (A : Type) : Type :=
  Controller K → (A + error) * Controller K * list string.

Definition ret {A} (a : A) : M A := λ c, (inl a, c, []).

Definition bind {A B} (m : M A) (k : A → M B) : M B :=
  λ c,
    match m c with
    | (inl a, c', l) =>
        let '(r, c'', l') := k a c' in (r, c'', l ++ l')
    | (inr e, c', l) => (inr e, c', l)
    end.

(** [return err] out of the tick. *)
Definition return_err {A} (e : error) : M A := λ c, (inr e, c, []).

(** [log.Print(err)]. *)
Definition log_Print (e : error) : M unit := λ c, (inl tt, c, [error_string e]).

Definition log_Printf (msg : string) : M unit := λ c, (inl tt, c, [msg]).

Definition get : M (Controller K) := λ c, (inl c, c, []).

(** A call into the core: it acts on [server] only. *)
Definition call (op : Node K → option error * Node K) : M (option error) :=
  λ c,
    let '(err, s) := op (server c) in
    (inl err,
     {| server := s; config := config c; nodeInfo := nodeInfo c;
        userList := userList c;
        nodeInfoMonitorPeriodic := nodeInfoMonitorPeriodic c;
        userReportPeriodic := userReportPeriodic c |},
     []).

Definition set_nodeInfo (n : NodeInfo) : M unit :=
  λ c,
    (inl tt,
     {| server := server c; config := config c; nodeInfo := n;
        userList := userList c;
        nodeInfoMonitorPeriodic := nodeInfoMonitorPeriodic c;
        userReportPeriodic := userReportPeriodic c |},
     []).

Definition set_userList (us : list UserInfo) : M unit :=
  λ c,
    (inl tt,
     {| server := server c; config := config c; nodeInfo := nodeInfo c;
        userList := us;
        nodeInfoMonitorPeriodic := nodeInfoMonitorPeriodic c;
        userReportPeriodic := userReportPeriodic c |},
     []).

End tick.

Notation "'let*' x ':=' m 'in' k" := (bind m (λ x, k))
  (at level 10, x name, m at level 100, k at level 200).
Notation "'run' m 'then' k" := (bind m (λ _, k))
  (at level 10, m at level 100, k at level 200).

Section nodeInfoMonitor.

Context {K : Core}.

(** [err := f(); if err != nil { log.Print(err); return err }]. *)
Definition checked (m : M (K := K) (option error)) : M unit :=
  let* err := m in
  match err with
  | Some e => run log_Print e then return_err e
  | None => ret tt
  end.

(** [err := f(); if err != nil { return err }]. *)
Definition propagated (m : M (K := K) (option error)) : M unit :=
  let* err := m in
  match err with
  | Some e => return_err e
  | None => ret tt
  end.

(** A helper of the package that itself returns [err]: its early return is
    turned into the returned error. *)
Definition as_result (m : M (K := K) unit) : M (option error) :=
  λ c,
    match m c with
    | (inl _, c', l) => (inl None, c', l)
    | (inr e, c', l) => (inl (Some e), c', l)
    end.

Definition removeOldTag (oldtag : string) : M (K := K) (option error) :=
  as_result (
    run propagated (call (removeInbound K oldtag)) then
    run propagated (call (removeOutbound K oldtag)) then
    ret tt).

Definition addNewTag (newNodeInfo : NodeInfo) : M (K := K) (option error) :=
  as_result (
    let* c := get in
    match InboundBuilder K (ListenIP (config c)) newNodeInfo (Cert (config c)) with
    | inr e => return_err e
    | inl inboundConfig =>
        run propagated (call (addInbound K inboundConfig)) then
        match OutboundBuilder K newNodeInfo with
        | inr e => return_err e
        | inl outBoundConfig =>
            run propagated (call (addOutbound K outBoundConfig)) then
            ret tt
        end
    end).

Definition addNewUser (userInfo : list UserInfo) (nodeInfo : NodeInfo)
  : M (K := K) (option error) :=
  as_result (
    let* users :=
      if String.eqb (NodeType nodeInfo) "V2ray" then
        if EnableVless nodeInfo then ret (buildVlessUser K userInfo)
        else ret (buildVmessUser K userInfo (AlterID nodeInfo))
      else if String.eqb (NodeType nodeInfo) "Trojan" then
        ret (buildTrojanUser K userInfo)
      else if String.eqb (NodeType nodeInfo) "Shadowsocks" then
        ret (buildSSUser K userInfo)
      else
        return_err (apiError ("Unsupported node type: " +:+ NodeType nodeInfo)) in
    let tag := tag_of nodeInfo in
    run propagated (call (addUsers K users tag)) then
    log_Printf ("Added " +:+ pretty (Z.of_nat (length userInfo)) +:+ " new users")).

(** [err := f(); if err != nil { log.Print(err) }]. *)
Definition logged (m : M (K := K) (option error)) : M unit :=
  let* err := m in
  match err with
  | Some e => log_Print e
  | None => ret tt
  end.

(** The certificate check of the tick; it only logs. *)
Definition checkCert (w : Remote) : M (K := K) unit :=
  let* c := get in
  if EnableTLS (nodeInfo c)
     && (String.eqb (CertMode (Cert (config c))) "dns"
         || String.eqb (CertMode (Cert (config c))) "http")
  then
    run logged (ret (lego_New w)) then
    logged (ret (RenewCert w))
  else ret tt.

(** [compareUserList] is run with the iteration order [order] for its
    final loop over a Go map. *)
Definition nodeInfoMonitor_body
  (order : gmap UserInfo byte → list UserInfo) (w : Remote) : M (K := K) unit :=
  (* First fetch Node Info *)
  match GetNodeInfo w with
  | inr err => return_err err
  | inl newNodeInfo =>
      let* c := get in
      let* nodeInfoChanged :=
        (* If nodeInfo changed *)
        if negb (bool_decide (nodeInfo c = newNodeInfo)) then
          (* Remove old tag *)
          let oldtag := tag_of (nodeInfo c) in
          run checked (removeOldTag oldtag) then
          (* Add new tag *)
          run checked (addNewTag newNodeInfo) then
          run set_nodeInfo newNodeInfo then
          (* Remove Old limiter *)
          run checked (call (DeleteInboundLimiter K oldtag)) then
          ret true
        else ret false in
      (* Check Cert *)
      run checkCert w then
      (* Update User *)
      match GetUserList w with
      | inr err => run log_Print err then return_err err
      | inl newUserInfo =>
          run
            (if nodeInfoChanged : bool then
               run checked (addNewUser newUserInfo newNodeInfo) then
               (* Add Limiter *)
               let* c := get in
               let tag := tag_of (nodeInfo c) in
               checked (call (AddInboundLimiter K tag (NI_SpeedLimit newNodeInfo)
                                 newUserInfo))
             else
               let* c := get in
               let '(deleted, added) :=
                 controller_diff.compareUserList_in_order order (userList c)
                   newUserInfo in
               run
                 (if Nat.ltb 0 (length deleted) then
                    let deletedEmail := map Email deleted in
                    let tag := tag_of (nodeInfo c) in
                    logged (call (removeUsers K deletedEmail tag))
                  else ret tt) then
               run
                 (if Nat.ltb 0 (length added) then
                    run logged (addNewUser added (nodeInfo c)) then
                    (* Update Limiter *)
                    let tag := tag_of (nodeInfo c) in
                    logged (call (AddInboundLimiter K tag
                                    (NI_SpeedLimit newNodeInfo) added))
                  else ret tt) then
               log_Printf (pretty (Z.of_nat (length deleted)) +:+ " user deleted, "
                           +:+ pretty (Z.of_nat (length added)) +:+ " user added"))
          then
          set_userList newUserInfo
      end
  end.

(** [nodeInfoMonitor]: the returned error, the controller afterwards, and
    the lines logged. *)
Definition nodeInfoMonitor
  (order : gmap UserInfo byte → list UserInfo) (w : Remote) (c : Controller K)
  : option error * Controller K * list string :=
  match nodeInfoMonitor_body order w c with
  | (inl _, c', l) => (None, c', l)
  | (inr e, c', l) => (Some e, c', l)
  end.

End nodeInfoMonitor.

(** A step of the tick keeps the cached user list. *)
Definition keeps_users {K A} (m : M (K := K) A) : Prop :=
  ∀ c, userList (m c).1.2 = userList c.

(** A step of the tick that, when it leaves the tick early with an error,
    has logged that error as its last line. *)
Definition logs_error {K A} (m : M (K := K) A) : Prop :=
  ∀ c e c' l, m c = (inr e, c', l) → last l = Some (error_string e).

(** A step that never leaves the tick early. *)
Definition goes_on {K A} (m : M (K := K) A) : Prop :=
  ∀ c, ∃ a c' l, m c = (inl a, c', l).

(** *** A concrete core

    Modelled from the spec: the handler managers and the limiter of the
    proxy side are not part of the embedded sources.  Following the spec's
    interface list ([AddHandler], [RemoveHandler], limiter [AddInbound] that
    creates or replaces a record, [DeleteInbound] that drops it) the node
    keeps the set of inbound tags, the set of outbound tags, the e-mails
    registered per inbound tag and the speed limit per limiter inbound; the
    builders produce the tag ["{NodeType}_{Port}"]. *)

Record SimpleNode := {
  inbounds : gset string;
  outbounds : gset string;
  users : gmap string (list string);
  limiters : gmap string Z
}.

Definition simple_core : Core := {|
  Node := SimpleNode;
  InboundConfig := string;
  OutboundConfig := string;
  ProtocolUser := string;
  InboundBuilder := λ _ n _, inl (tag_of n);
  OutboundBuilder := λ n, inl (tag_of n);
  addInbound := λ tag s,
    (None, {| inbounds := {[tag]} ∪ inbounds s; outbounds := outbounds s;
              users := users s; limiters := limiters s |});
  addOutbound := λ tag s,
    (None, {| inbounds := inbounds s; outbounds := {[tag]} ∪ outbounds s;
              users := users s; limiters := limiters s |});
  removeInbound := λ tag s,
    (None, {| inbounds := inbounds s ∖ {[tag]}; outbounds := outbounds s;
              users := delete tag (users s); limiters := limiters s |});
  removeOutbound := λ tag s,
    (None, {| inbounds := inbounds s; outbounds := outbounds s ∖ {[tag]};
              users := users s; limiters := limiters s |});
  addUsers := λ us tag s,
    (None, {| inbounds := inbounds s; outbounds := outbounds s;
              users := <[tag := default [] (users s !! tag) ++ us]> (users s);
              limiters := limiters s |});
  removeUsers := λ emails tag s,
    (None, {| inbounds := inbounds s; outbounds := outbounds s;
              users := <[tag := filter (λ e, e ∉ emails)
                                       (default [] (users s !! tag))]> (users s);
              limiters := limiters s |});
  AddInboundLimiter := λ tag speed _ s,
    (None, {| inbounds := inbounds s; outbounds := outbounds s;
              users := users s; limiters := <[tag := speed]> (limiters s) |});
  DeleteInboundLimiter := λ tag s,
    (None, {| inbounds := inbounds s; outbounds := outbounds s;
              users := users s; limiters := delete tag (limiters s) |});
  buildVlessUser := map Email;
  buildVmessUser := λ us _, map Email us;
  buildTrojanUser := map Email;
  buildSSUser := map Email
|}.

(** *** Sample controllers and remote answers *)

Definition node_443 : NodeInfo :=
  {| NodeType := "V2ray"; NodeID := 1; NI_Port := 443; NI_SpeedLimit := 0;
     AlterID := 0; TransportProtocol := "tcp"; Host := ""; Path := "";
     EnableTLS := false; TLSType := ""; EnableVless := false |}.

Definition node_8443 : NodeInfo :=
  {| NodeType := "V2ray"; NodeID := 1; NI_Port := 8443; NI_SpeedLimit := 0;
     AlterID := 0; TransportProtocol := "tcp"; Host := ""; Path := "";
     EnableTLS := false; TLSType := ""; EnableVless := false |}.

Definition sample_config : Config :=
  {| ListenIP := "0.0.0.0"; UpdatePeriodic := 60;
     Cert := {| CertMode := "none"; CertDomain := ""; CertEmail := "";
                Provider := ""; DNSEnv := [] |} |}.

(** A controller serving [node_443], both periodic tasks running. *)
Definition running_controller : Controller simple_core :=
  {| server := {| inbounds := {["V2ray_443"]}; outbounds := {["V2ray_443"]};
                  users := {["V2ray_443" := []]};
                  limiters := {["V2ray_443" := 0]} |} : Node simple_core;
     config := sample_config;
     nodeInfo := node_443;
     userList := [];
     nodeInfoMonitorPeriodic := Some {| close_error := None |};
     userReportPeriodic := Some {| close_error := None |} |}.

(** The same controller with a node-info periodic whose [Close] fails. *)
Definition failing_close_controller : Controller simple_core :=
  {| server := server running_controller;
     config := sample_config;
     nodeInfo := node_443;
     userList := [];
     nodeInfoMonitorPeriodic := Some {| close_error := Some (newError "busy") |};
     userReportPeriodic := Some {| close_error := None |} |}.



End controller.

(** Three users for the diff, as in the reconciliation scenario {A,B} to
    {B,C}. *)
Definition user_A : UserInfo :=
  {| UID := 1; EmailTag := ""; Email := "a@x"; Passwd := ""; Port := 0;
     Method := ""; SpeedLimit := 0; DeviceLimit := 0; Protocol := "";
     ProtocolParam := ""; Obfs := ""; ObfsParam := ""; UUID := "" |}.
Definition user_B : UserInfo :=
  {| UID := 2; EmailTag := ""; Email := "b@x"; Passwd := ""; Port := 0;
     Method := ""; SpeedLimit := 0; DeviceLimit := 0; Protocol := "";
     ProtocolParam := ""; Obfs := ""; ObfsParam := ""; UUID := "" |}.
Definition user_C : UserInfo :=
  {| UID := 3; EmailTag := ""; Email := "c@x"; Passwd := ""; Port := 0;
     Method := ""; SpeedLimit := 0; DeviceLimit := 0; Protocol := "";
     ProtocolParam := ""; Obfs := ""; ObfsParam := ""; UUID := "" |}.

(** ** mydispatcher: shouldOverride and the task started by Dispatch *)

Module dispatch_task.

Import dispatcher.

(** [strings.HasPrefix(s, prefix)]. *)
Definition HasPrefix (s prefix : string) : bool := String.prefix prefix s.

(** The first loop of [shouldOverride]: [return false] at the first excluded
    domain equal to [domain]; [rest] is what follows the loop. *)
Fixpoint exclude_loop (domain : string) (ds : list string) (rest : bool) : bool :=
  match ds with
  | [] => rest
  | d :: ds => if String.eqb domain d then false else exclude_loop domain ds rest
  end.

(** The second loop: [return true] at the first listed protocol that is a
    prefix of [protocol]; [return false] after the loop. *)
Fixpoint override_loop (protocol : string) (ps : list string) : bool :=
  match ps with
  | [] => false
  | p :: ps => if HasPrefix protocol p then true else override_loop protocol ps
  end.

Definition shouldOverride (result : sniff.SniffResult) (request : SniffingRequest)
  : bool :=
  let domain := sniff.Domain result in
  exclude_loop domain (ExcludeForDomain request)
    (let protocol := sniff.Protocol result in
     override_loop protocol (OverrideDestinationForProtocol request)).

(** How the task ends: it ran to its last statement, having produced the
    events [evs], with the cached reader left in state [cReader] and
    [routedDispatch] called on [destination]; or it panicked. *)
Inductive TaskOutcome :=
| Ran (evs : list Event) (cReader : cached.cachedReader)
      (ctx : Context) (destination : Destination)
| TaskPanic (msg : string).

Section task.

Context {SnifferState : Type}.
Variable NewSniffer : SnifferState.
Variable Sniff : SnifferState → list byte → sniff.SniffReturn * SnifferState.
Variable ctx_err : nat → option ctx_error.

(** [net.ParseAddress] on the text of an address. *)
Variable ParseAddress : string → string.

Variable d : Features.

(** The closure of [Dispatch] for a sniffed connection.  [rd] is the pipe
    reader of the outbound link, which the closure wraps in a [cachedReader]
    and puts back into the link; the link that [routedDispatch] receives
    reads through the cached reader returned in the outcome.  [content] and
    the outbound session are pointers held by [ctx]: the assignments to
    [content.Protocol] and [ob.Target] show in the context passed on.
    [None] only when the fuel of the sniff loop runs out. *)
Definition sniffAndDispatch (fuel : nat) (rd : pipe.Reader) (ctx : Context)
  (outbound : Link) (destination : Destination) (sniffingRequest : SniffingRequest)
  : option TaskOutcome :=
  let cReader := cached.wrap rd in
  match sniff.sniffer NewSniffer Sniff ctx_err fuel cReader with
  | None => None
  | Some ((result, err), cReader, _) =>
      match err with
      | None =>
          match result, content ctx with
          | Some result, Some c =>
              let ctx :=
                ContextWithContent ctx
                  {| CProtocol := sniff.Protocol result;
                     CSniffingRequest := CSniffingRequest c;
                     SkipRoutePick := SkipRoutePick c |} in
              if shouldOverride result sniffingRequest then
                let domain := sniff.Domain result in
                let destination :=
                  {| Address := ParseAddress domain;
                     DPort := DPort destination;
                     DNetwork := DNetwork destination |} in
                let ctx := ContextWithOutbound ctx destination in
                Some (Ran (EvLog ("sniffed domain: " +:+ domain)
                           :: routedDispatch d ctx outbound destination)
                          cReader ctx destination)
              else
                Some (Ran (routedDispatch d ctx outbound destination)
                          cReader ctx destination)
          | _, _ => Some (TaskPanic nil_dereference)
          end
      | Some _ =>
          Some (Ran (routedDispatch d ctx outbound destination)
                    cReader ctx destination)
      end
  end.

(** Running the task that [Dispatch] started. *)
Definition run_task (fuel : nat) (rd : pipe.Reader) (t : Task)
  : option TaskOutcome :=
  match t with
  | RoutedDispatch ctx link destination =>
      Some (Ran (routedDispatch d ctx link destination) (cached.wrap rd)
                ctx destination)
  | SniffThenDispatch ctx link destination request =>
      sniffAndDispatch fuel rd ctx link destination request
  end.

End task.

(** *** Observations on links and event lists *)

(** The pipe a writer finally writes to, under its wrappers. *)
Fixpoint writer_pipe (w : LinkWriter) : Pipe :=
  match w with
  | PipeWriter p => p
  | RateWriter w _ => writer_pipe w
  | SizeStatWriter _ w => writer_pipe w
  end.

(** The buckets pacing a writer, outermost first. *)
Fixpoint writer_buckets (w : LinkWriter) : list (option Bucket) :=
  match w with
  | PipeWriter _ => []
  | RateWriter w b => b :: writer_buckets w
  | SizeStatWriter _ w => writer_buckets w
  end.

(** The counters counting a writer's bytes, outermost first. *)
Fixpoint writer_counters (w : LinkWriter) : list Counter :=
  match w with
  | PipeWriter _ => []
  | RateWriter w _ => writer_counters w
  | SizeStatWriter c w => c :: writer_counters w
  end.

Definition is_teardown (e : Event) : bool :=
  match e with
  | EvClose _ | EvInterrupt _ => true
  | _ => false
  end.

Definition is_Go (e : Event) : bool :=
  match e with
  | EvGo _ => true
  | _ => false
  end.

Definition is_handover (e : Event) : bool :=
  match e with
  | EvHandlerDispatch _ _ _ => true
  | _ => false
  end.

(** The user on whose behalf [getLink] consults limiter, policy and stats:
    the session's user when its e-mail is not empty. *)
Definition named_user (ctx : Context) : option (Inbound * MemoryUser) :=
  match inbound ctx with
  | Some si =>
      match User si with
      | Some user =>
          if Nat.ltb 0 (String.length (Email user)) then Some (si, user) else None
      | None => None
      end
  | None => None
  end.

(** The links over the bare pipes. *)
Definition bare_inbound : Link :=
  {| Reader := PipeReader downlink; Writer := PipeWriter uplink |}.
Definition bare_outbound : Link :=
  {| Reader := PipeReader uplink; Writer := PipeWriter downlink |}.

(** Features with a limiter bucket, rate limiting granted, and both traffic
    counters enabled and registered. *)
Definition metered_features : Features := {|
  Detect := λ _ _ _, false;
  GetUserBucket := λ _ _ _, (Some {| rate := 1000 |}, true, false);
  ForLevel := λ _, {| UserUplink := true; UserDownlink := true |};
  GetOrRegisterCounter := λ name, Some {| counter_name := name |};
  router := None;
  GetHandler := λ _, None;
  GetDefaultHandler := Some direct
|}.

(** The same features with the router taken away ([d.router == nil]). *)
Definition without_router (d : Features) : Features := {|
  Detect := Detect d;
  GetUserBucket := GetUserBucket d;
  ForLevel := ForLevel d;
  GetOrRegisterCounter := GetOrRegisterCounter d;
  router := None;
  GetHandler := GetHandler d;
  GetDefaultHandler := GetDefaultHandler d
|}.

(** The handler [routedDispatch] settles on: the one registered for the
    picked route, else the default handler. *)
Definition chosen_handler (d : Features) (ctx : Context)
  (destination : Destination) : option Handler :=
  match route_handler d ctx destination with
  | Some h => Some h
  | None => GetDefaultHandler d
  end.

(** A context whose content asks to skip the route pick. *)
Definition ctx_skip : Context :=
  {| inbound := inbound ctx_user;
     outboundTarget := Some dest_ads;
     content := Some {| CProtocol := ""; CSniffingRequest := CSniffingRequest new_Content;
                        SkipRoutePick := true |};
     accessMessage := accessMessage ctx_user |}.

(** The context and the link of a task. *)
Definition task_ctx (t : Task) : Context :=
  match t with
  | RoutedDispatch ctx _ _ => ctx
  | SniffThenDispatch ctx _ _ _ => ctx
  end.

Definition task_link (t : Task) : Link :=
  match t with
  | RoutedDispatch _ link _ => link
  | SniffThenDispatch _ link _ _ => link
  end.

Definition task_sniffs (t : Task) : bool :=
  match t with
  | RoutedDispatch _ _ _ => false
  | SniffThenDispatch _ _ _ _ => true
  end.





End dispatch_task.

(** ** mydispatcher: the other methods of cachedReader *)

Module cached_ops.

Import cached.

(** [ReadMultiBufferTimeout]: the cache first, one timed read of the
    underlying reader otherwise (an empty result stands for a timeout). *)
Definition ReadMultiBufferTimeout (r : cachedReader)
  : buf.MultiBuffer * cachedReader :=
  match readInternal r with
  | (Some mb, r') => (mb, r')
  | (None, r') =>
      let '(mb, rd) := pipe.ReadMultiBufferTimeout (reader r') in
      (mb, {| reader := rd; cache := cache r' |})
  end.

(** [pipe.Reader.Interrupt]: the pipe drops what it holds and delivers
    nothing more. *)
Definition pipe_Interrupt (rd : pipe.Reader) : pipe.Reader := [].

(** [Interrupt]: the cache is released (and set to nil), then the underlying
    reader is interrupted. *)
Definition Interrupt (r : cachedReader) : cachedReader :=
  let cache' := if negb (Nat.eqb (length (cache r)) 0) then [] else cache r in
  {| reader := pipe_Interrupt (reader r); cache := cache' |}.

(** The calls a user of the reader can make. *)
Inductive Op := OpCache | OpRead | OpReadTimeout | OpInterrupt.

#[global] Instance Op_eq_dec : EqDecision Op.
Proof. solve_decision. Defined.

(** A sequence of calls: the bytes handed to the caller by the two read
    methods, in order, and the reader afterwards.  ([Cache] hands nothing
    over: its scratch is a copy.) *)
Fixpoint run (ops : list Op) (r : cachedReader) : list byte * cachedReader :=
  match ops with
  | [] => ([], r)
  | op :: ops =>
      let '(out, r1) :=
        match op with
        | OpCache => ([], (Cache r).1)
        | OpRead =>
            let '(mb, r1) := ReadMultiBuffer r in
            (buf.Bytes (default [] mb), r1)
        | OpReadTimeout =>
            let '(mb, r1) := ReadMultiBufferTimeout r in (buf.Bytes mb, r1)
        | OpInterrupt => ([], Interrupt r)
        end in
      let '(outs, r2) := run ops r1 in
      (out ++ outs, r2)
  end.

(** The bytes a reader still owes its caller: the cached ones, then the
    ones the underlying reader will deliver. *)
Definition pending (r : cachedReader) : list byte :=
  buf.Bytes (cache r) ++ pipe.stream (reader r).

End cached_ops.

(** ** The sniff loop: what it read *)

Module sniff_trace.

Import sniff.

(** The scratch contents of the [Cache] calls of a run, in order. *)
Definition cache_payloads (tr : list Event) : list buf.Buffer :=
  omap (λ e, match e with EvCache p => Some p | EvSniff _ => None end) tr.

(** The payloads given to [Sniff], in order. *)
Definition sniffed_payloads (tr : list Event) : list (list byte) :=
  omap (λ e, match e with EvSniff p => Some p | EvCache _ => None end) tr.

(** A [Sniff] that breaks the contract: an error that is none of the
    expected ones. *)
Definition Sniff_odd (st : unit) (p : list byte) : SniffReturn * unit :=
  ((None, Some (newError "not tls")), st).

End sniff_trace.

(** ** controller: vocabulary for the tick *)

Module tick_facts.

Import controller.

(** The controller with its core state replaced. *)
Definition with_server {K} (c : Controller K) (s : Node K) : Controller K :=
  {| server := s; config := config c; nodeInfo := nodeInfo c;
     userList := userList c;
     nodeInfoMonitorPeriodic := nodeInfoMonitorPeriodic c;
     userReportPeriodic := userReportPeriodic c |}.

(** The controller with its two caches replaced. *)
Definition with_caches {K} (c : Controller K) (n : NodeInfo)
  (us : list UserInfo) : Controller K :=
  {| server := server c; config := config c; nodeInfo := n; userList := us;
     nodeInfoMonitorPeriodic := nodeInfoMonitorPeriodic c;
     userReportPeriodic := userReportPeriodic c |}.

(** A step of the tick that changes nothing but the core state. *)
Definition server_only {K A} (m : M (K := K) A) : Prop :=
  ∀ c, ∃ s, (m c).1.2 = with_server c s.

(** The last line [nodeInfoMonitor] logs in a tick without node change. *)
Definition diff_line (deleted added : list UserInfo) : string :=
  (pretty (Z.of_nat (length deleted)) +:+ " user deleted, "
   +:+ pretty (Z.of_nat (length added)) +:+ " user added")%string.

(** A core in which every call fails and changes nothing. *)
Definition failing_core : Core := {|
  Node := unit;
  InboundConfig := string;
  OutboundConfig := string;
  ProtocolUser := string;
  InboundBuilder := λ _ n _, inl (tag_of n);
  OutboundBuilder := λ n, inl (tag_of n);
  addInbound := λ _ s, (Some (apiError "core down"), s);
  addOutbound := λ _ s, (Some (apiError "core down"), s);
  removeInbound := λ _ s, (Some (apiError "core down"), s);
  removeOutbound := λ _ s, (Some (apiError "core down"), s);
  addUsers := λ _ _ s, (Some (apiError "core down"), s);
  removeUsers := λ _ _ s, (Some (apiError "core down"), s);
  AddInboundLimiter := λ _ _ _ s, (Some (apiError "core down"), s);
  DeleteInboundLimiter := λ _ s, (Some (apiError "core down"), s);
  buildVlessUser := map Email;
  buildVmessUser := λ us _, map Email us;
  buildTrojanUser := map Email;
  buildSSUser := map Email
|}.

Definition stuck_controller : Controller failing_core :=
  {| server := tt : Node failing_core; config := sample_config; nodeInfo := node_443;
     userList := [user_A; user_B];
     nodeInfoMonitorPeriodic := None; userReportPeriodic := None |}.

(** The panel answers with the cached node and users B and C. *)
Definition remote_users_BC : Remote :=
  {| GetNodeInfo := inl node_443; GetUserList := inl [user_B; user_C];
     lego_New := None; RenewCert := None |}.

(** The panel answers with a new port and users B and C. *)
Definition remote_moved : Remote :=
  {| GetNodeInfo := inl node_8443; GetUserList := inl [user_B; user_C];
     lego_New := None; RenewCert := None |}.

(** A node of a type the controller does not know. *)
Definition node_socks : NodeInfo :=
  {| NodeType := "Socks"; NodeID := 1; NI_Port := 1080; NI_SpeedLimit := 0;
     AlterID := 0; TransportProtocol := "tcp"; Host := ""; Path := "";
     EnableTLS := false; TLSType := ""; EnableVless := false |}.

End tick_facts.

(** ** controller: userInfoMonitor *)

Module reporting.

Import controller.

(** api/apimodel.go: the records the report calls carry.  The three load
    figures of [NodeStatus] are [float64] values that the controller only
    passes on; their type is a parameter. *)
Record NodeStatus (Float : Type) := {
  CPU : Float;
  Mem : Float;
  Disk : Float;
  Uptime : Z
}.

Arguments CPU {Float}.
Arguments Mem {Float}.
Arguments Disk {Float}.
Arguments Uptime {Float}.

Record OnlineUser := {
  OU_UID : Z;
  IP : string
}.

Record UserTraffic := {
  UT_UID : Z;
  UT_Email : string;
  Upload : Z;
  Download : Z
}.

(** What [userInfoMonitor] calls outside the embedded sources: the system
    probe, the traffic counters and online table kept by the core ([Stats]
    is their state; reading a counter may reset it), and the three report
    calls of the panel API. *)
Record Reporter := {
  Float : Type;
  Stats : Type;
  GetSystemInfo : Float * Float * Float * Z * option error;
  getTraffic : string → Stats → Z * Z * Stats;
  GetOnlineDevice : string → Stats → (list OnlineUser + error) * Stats;
  ReportNodeStatus : NodeStatus Float → option error;
  ReportUserTraffic : list UserTraffic → option error;
  ReportNodeOnlineUsers : list OnlineUser → option error
}.

Inductive Event (R : Reporter) :=
| EvLog (msg : string)
| EvReportNodeStatus (st : NodeStatus (Float R))
| EvReportUserTraffic (l : list UserTraffic)
| EvReportNodeOnlineUsers (l : list OnlineUser).

Arguments EvLog {R}.
Arguments EvReportNodeStatus {R}.
Arguments EvReportUserTraffic {R}.
Arguments EvReportNodeOnlineUsers {R}.

(** [err := f(); if err != nil { log.Print(err) }] around a report call. *)
Definition logged_error {R} (err : option error) : list (Event R) :=
  match err with
  | Some e => [EvLog (error_string e)]
  | None => []
  end.

(** One turn of the loop over [*c.userList]. *)
Definition traffic_step (R : Reporter) (acc : list UserTraffic * Stats R)
  (user : UserInfo) : list UserTraffic * Stats R :=
  let '(userTraffic, s) := acc in
  let '(up, down, s) := getTraffic R (Email user) s in
  if (up >? 0) || (down >? 0) then
    (userTraffic ++ [{| UT_UID := UID user; UT_Email := Email user;
                        Upload := up; Download := down |}], s)
  else (userTraffic, s).

(** [userInfoMonitor]: the returned error, the core's counters afterwards,
    and the log and report calls made, in order.  It reads the cached node
    info and user list and writes no field of the controller. *)
Definition userInfoMonitor {K} (R : Reporter) (c : Controller K) (s : Stats R)
  : option error * Stats R * list (Event R) :=
  (* Get server status *)
  let '(CPU, Mem, Disk, Uptime, err) := GetSystemInfo R in
  let probed := logged_error err in
  let status := {| CPU := CPU; Mem := Mem; Disk := Disk; Uptime := Uptime |} in
  let reported := EvReportNodeStatus status :: logged_error (ReportNodeStatus R status) in
  (* Get User traffic *)
  let '(userTraffic, s) := foldl (traffic_step R) ([], s) (userList c) in
  let traffic :=
    if Nat.ltb 0 (length userTraffic) then
      EvReportUserTraffic userTraffic :: logged_error (ReportUserTraffic R userTraffic)
    else [] in
  (* Report Online info *)
  let tag := tag_of (nodeInfo c) in
  match GetOnlineDevice R tag s with
  | (inr err, s) =>
      (None, s, probed ++ reported ++ traffic ++ [EvLog (error_string err)])
  | (inl onlineDevice, s) =>
      let online :=
        if Nat.ltb 0 (length onlineDevice) then
          EvReportNodeOnlineUsers onlineDevice
          :: logged_error (ReportNodeOnlineUsers R onlineDevice)
        else [] in
      (None, s, probed ++ reported ++ traffic ++ online)
  end.

(** The counters read for a list of users, one [getTraffic] per user in
    list order. *)
Fixpoint readings (R : Reporter) (us : list UserInfo) (s : Stats R)
  : list (UserInfo * Z * Z) * Stats R :=
  match us with
  | [] => ([], s)
  | user :: us =>
      let '(up, down, s) := getTraffic R (Email user) s in
      let '(rest, s) := readings R us s in
      ((user, up, down) :: rest, s)
  end.

Definition has_traffic (x : UserInfo * Z * Z) : Prop :=
  0 < x.1.2 ∨ 0 < x.2.

#[global] Instance has_traffic_dec x : Decision (has_traffic x).
Proof. unfold has_traffic. apply _. Defined.

Definition traffic_record (x : UserInfo * Z * Z) : UserTraffic :=
  {| UT_UID := UID x.1.1; UT_Email := Email x.1.1;
     Upload := x.1.2; Download := x.2 |}.

(** The report calls among the events. *)
Definition is_report {R} (e : Event R) : bool :=
  match e with
  | EvLog _ => false
  | _ => true
  end.

(** A reporter over counters kept per e-mail (uplink, downlink), read and
    reset by [getTraffic]; the probe and the online table fail. *)
Definition sample_reporter : Reporter := {|
  Float := Z;
  Stats := gmap string (Z * Z);
  GetSystemInfo := (0, 0, 0, 0, Some (apiError "no probe"));
  getTraffic := λ email s, (default (0, 0) (s !! email), delete email s);
  GetOnlineDevice := λ _ s, (inr (apiError "no limiter"), s);
  ReportNodeStatus := λ _, None;
  ReportUserTraffic := λ _, Some (apiError "panel down");
  ReportNodeOnlineUsers := λ _, None
|}.

End reporting.

Import controller_diff.

Section compareUserList_facts.

Implicit Types (old new set ks : list UserInfo) (m msrc mall : umap).

Lemma index_old_pair old (m1 m2 : umap) :
  foldl index_step (m1, m2) old
  = (foldl (λ m v, <[v := x00]> m) m1 old, foldl (λ m v, <[v := x00]> m) m2 old).
Proof. revert m1 m2. induction old as [|v old IH]; intros m1 m2; simpl; [done|]. apply IH. Qed.

Lemma dom_foldl_insert (b : byte) old m :
  dom (foldl (λ m v, <[v := b]> m) m old) = dom m ∪ list_to_set old.
Proof.
  revert m. induction old as [|v old IH]; intros m; simpl.
  - set_solver.
  - rewrite IH, dom_insert_L. set_solver.
Qed.

Lemma size_insert_changes m (v : UserInfo) (b : byte) :
  size m ≠ size (<[v := b]> m) ↔ v ∉ dom m.
Proof.
  rewrite not_elem_of_dom.
  destruct (m !! v) as [c|] eqn:E.
  - rewrite map_size_insert_Some by eauto. split; [congruence | discriminate].
  - rewrite map_size_insert_None by done. split; [done | lia].
Qed.

Lemma merge_new_spec new : ∀ mall set,
  NoDup new →
  dom (foldl merge_step (mall, set) new).1 = dom mall ∪ list_to_set new ∧
  ∀ u, u ∈ (foldl merge_step (mall, set) new).2
       ↔ u ∈ set ∨ (u ∈ new ∧ u ∈ dom mall).
Proof.
  induction new as [|v new IH]; intros mall set Hnd; simpl.
  - split; [set_solver|]. intros u. set_solver.
  - apply NoDup_cons in Hnd as [Hv Hnd].
    case_decide as Hsz.
    + apply size_insert_changes in Hsz.
      destruct (IH (<[v := x01]> mall) set Hnd) as [Hd Hs]. split.
      * rewrite Hd, dom_insert_L. set_solver.
      * intros u. rewrite Hs, dom_insert_L. set_solver.
    + assert (v ∈ dom mall) as Hin.
      { destruct (decide (v ∈ dom mall)) as [|Hn]; [done|].
        apply (size_insert_changes _ _ x01) in Hn. by destruct Hn. }
      destruct (IH (<[v := x01]> mall) (set ++ [v]) Hnd) as [Hd Hs]. split.
      * rewrite Hd, dom_insert_L. set_solver.
      * intros u. rewrite Hs, dom_insert_L. set_solver.
Qed.

Lemma dom_drop_common set mall :
  dom (drop_common set mall) = dom mall ∖ list_to_set set.
Proof.
  unfold drop_common. revert mall.
  induction set as [|v set IH]; intros mall; simpl.
  - set_solver.
  - rewrite IH, dom_delete_L. set_solver.
Qed.

Lemma split_changes_spec msrc ks : ∀ deleted added,
  (∀ u, u ∈ (foldl (split_step msrc) (deleted, added) ks).1
        ↔ u ∈ deleted ∨ (u ∈ ks ∧ u ∈ dom msrc)) ∧
  (∀ u, u ∈ (foldl (split_step msrc) (deleted, added) ks).2
        ↔ u ∈ added ∨ (u ∈ ks ∧ u ∉ dom msrc)).
Proof.
  induction ks as [|v ks IH]; intros deleted added; simpl.
  - split; intros u; set_solver.
  - destruct (msrc !! v) as [b|] eqn:E.
    + assert (v ∈ dom msrc) by (apply elem_of_dom; eauto).
      destruct (IH (deleted ++ [v]) added) as [H1 H2].
      split; intros u; [rewrite H1 | rewrite H2]; set_solver.
    + assert (v ∉ dom msrc) by (by apply not_elem_of_dom).
      destruct (IH deleted (added ++ [v])) as [H1 H2].
      split; intros u; [rewrite H1 | rewrite H2]; set_solver.
Qed.

Lemma elem_of_keys m (u : UserInfo) : u ∈ keys m ↔ u ∈ dom m.
Proof.
  unfold keys. rewrite elem_of_dom, list_elem_of_fmap. split.
  - intros [[k b] [-> Hin]]. apply elem_of_map_to_list in Hin. eauto.
  - intros [b Hb]. exists (u, b). split; [done|]. by apply elem_of_map_to_list.
Qed.

(** Membership in the two results of [compareUserList]. *)
Lemma compareUserList_members order old new deleted added :
  NoDup new → range_order order →
  compareUserList_in_order order old new = (deleted, added) →
  (∀ u, u ∈ deleted ↔ u ∈ old ∧ u ∉ new) ∧
  (∀ u, u ∈ added ↔ u ∈ new ∧ u ∉ old).
Proof.
  intros Hnd Hord. unfold compareUserList_in_order, index_old, merge_new.
  rewrite index_old_pair.
  set (m0 := foldl (λ m v, <[v := x00]> m) ∅ old).
  assert (dom m0 = list_to_set old) as Hm0.
  { unfold m0. rewrite dom_foldl_insert. set_solver. }
  destruct (merge_new_spec new m0 [] Hnd) as [Hd Hs].
  destruct (foldl merge_step (m0, []) new) as [mall set] eqn:E2.
  simpl in Hd, Hs.
  destruct (split_changes_spec m0 (order (drop_common set mall)) [] []) as [H1 H2].
  unfold split_changes. intros Heq. rewrite Heq in H1, H2. simpl in H1, H2.
  assert (∀ u, u ∈ order (drop_common set mall) ↔
               (u ∈ old ∨ u ∈ new) ∧ ¬ (u ∈ new ∧ u ∈ old)) as Hk.
  { intros u. rewrite (Hord _), elem_of_keys, dom_drop_common.
    rewrite elem_of_difference, Hd, Hm0, elem_of_union, !elem_of_list_to_set.
    rewrite Hs, Hm0, elem_of_list_to_set. set_solver. }
  split; intros u; [rewrite H1 | rewrite H2]; rewrite Hk, Hm0, elem_of_list_to_set;
    set_solver.
Qed.

End compareUserList_facts.

(** C4.  For user lists [old] and [new] without duplicates, and whatever
    order Go iterates the final map in, the lists
    [(deleted, added) = compareUserList(old, new)] satisfy, as sets of whole
    [UserInfo] records: [old ∪ added = new ∪ deleted], [added ∩ old = ∅] and
    [deleted ∩ new = ∅].  More precisely [deleted] holds exactly the records
    of [old] that are not in [new], and [added] exactly the records of [new]
    that are not in [old]; so a user with any field changed has the old
    record in [deleted] and the new one in [added]. *)
Theorem compareUserList_set_difference
    (order : gmap UserInfo byte → list UserInfo)
    (old new deleted added : list UserInfo) :
  NoDup old → NoDup new → range_order order →
  compareUserList_in_order order old new = (deleted, added) →
  list_to_set old ∪ list_to_set added
    =@{gset UserInfo} list_to_set new ∪ list_to_set deleted ∧
  list_to_set added ∩ list_to_set old =@{gset UserInfo} ∅ ∧
  list_to_set deleted ∩ list_to_set new =@{gset UserInfo} ∅ ∧
  (∀ u, u ∈ deleted ↔ u ∈ old ∧ u ∉ new) ∧
  (∀ u, u ∈ added ↔ u ∈ new ∧ u ∉ old).
Proof.
  intros _ Hnew Hord Hrun.
  destruct (compareUserList_members order old new deleted added Hnew Hord Hrun)
    as [Hdel Hadd].
  split; [|split; [|split; [|split]]]; [| | |done|done].
  - apply set_eq. intros u.
    rewrite !elem_of_union, !elem_of_list_to_set, Hdel, Hadd.
    destruct (decide (u ∈ old)), (decide (u ∈ new)); tauto.
  - apply set_eq. intros u.
    rewrite elem_of_intersection, !elem_of_list_to_set, Hadd.
    split; [tauto | by intros ?%not_elem_of_empty].
  - apply set_eq. intros u.
    rewrite elem_of_intersection, !elem_of_list_to_set, Hdel.
    split; [tauto | by intros ?%not_elem_of_empty].
Qed.

Lemma compareUserList_set_difference_witness :
  compareUserList [user_A; user_B] [user_B; user_C] = ([user_A], [user_C]) ∧
  list_to_set [user_A; user_B] ∪ list_to_set [user_C]
    =@{gset UserInfo} list_to_set [user_B; user_C] ∪ list_to_set [user_A].
Proof.
  split; [by vm_compute|].
  apply (compareUserList_set_difference keys
           [user_A; user_B] [user_B; user_C] [user_A] [user_C]).
  - apply (bool_decide_unpack _). by vm_compute.
  - apply (bool_decide_unpack _). by vm_compute.
  - intros m. reflexivity.
  - by vm_compute.
Defined.

(** ** cachedReader *)

Section cachedReader_facts.

Import cached.

Implicit Types (mb : buf.MultiBuffer) (rd : pipe.Reader) (r : cachedReader).

Lemma Copy_take mb (room : nat) : buf.Copy mb room = take room (buf.Bytes mb).
Proof.
  revert room. induction mb as [|bb rest IH]; intros room; simpl.
  - by rewrite take_nil.
  - unfold buf.Bytes in *. simpl.
    destruct (Nat.ltb_spec (Nat.min room (length bb)) (length bb)) as [Hlt|Hge].
    + rewrite app_nil_r, Nat.min_l by lia.
      rewrite take_app_le by lia. done.
    + rewrite Nat.min_r by lia. rewrite IH.
      rewrite take_app_ge by lia. by rewrite firstn_all.
Qed.

Lemma IsEmpty_Bytes mb : buf.IsEmpty mb = true → buf.Bytes mb = [].
Proof.
  unfold buf.IsEmpty, buf.Bytes. induction mb as [|bb rest IH]; simpl; [done|].
  intros [Hb Hrest]%andb_prop. rewrite (IH Hrest).
  unfold buf.Buffer_IsEmpty in Hb. apply Nat.eqb_eq in Hb.
  destruct bb; [done | discriminate].
Qed.

Lemma Bytes_MergeMulti (dest src : buf.MultiBuffer) :
  buf.Bytes (buf.MergeMulti dest src) = buf.Bytes dest ++ buf.Bytes src.
Proof. unfold buf.Bytes, buf.MergeMulti. apply concat_app. Qed.

(** One [Cache] call: the underlying reader advances by one delivery, the
    cache grows by exactly the delivered bytes, the scratch is the first
    [buf.Size] bytes of the cache. *)
Lemma Cache_step r :
  reader (Cache r).1 = drop 1 (reader r) ∧
  buf.Bytes (cache (Cache r).1)
    = buf.Bytes (cache r) ++ pipe.stream (take 1 (reader r)) ∧
  (Cache r).2 = take buf.Size (buf.Bytes (cache (Cache r).1)).
Proof.
  unfold Cache, pipe.ReadMultiBufferTimeout, pipe.stream.
  destruct (reader r) as [|mb rd]; simpl.
  - rewrite app_nil_r, Copy_take. done.
  - rewrite app_nil_r, Copy_take.
    destruct (buf.IsEmpty mb) eqn:E; simpl.
    + rewrite (IsEmpty_Bytes _ E), app_nil_r. done.
    + rewrite Bytes_MergeMulti. done.
Qed.

Lemma stream_app (rd1 rd2 : pipe.Reader) :
  pipe.stream (rd1 ++ rd2) = pipe.stream rd1 ++ pipe.stream rd2.
Proof. unfold pipe.stream. by rewrite map_app, concat_app. Qed.

Lemma stream_take_S (n : nat) rd :
  pipe.stream (take (S n) rd)
  = pipe.stream (take 1 rd) ++ pipe.stream (take n (drop 1 rd)).
Proof. destruct rd as [|mb rd]; simpl; [by rewrite take_nil|]. rewrite drop_0. apply (stream_app [mb]). Qed.

(** [n] successive [Cache] calls. *)
Lemma Cache_n_spec (n : nat) : ∀ r,
  reader (Cache_n n r).1 = drop n (reader r) ∧
  buf.Bytes (cache (Cache_n n r).1)
    = buf.Bytes (cache r) ++ pipe.stream (take n (reader r)) ∧
  ∀ (i : nat) (b : buf.Buffer), (Cache_n n r).2 !! i = Some b →
    b = take buf.Size
          (buf.Bytes (cache r) ++ pipe.stream (take (S i) (reader r))).
Proof.
  induction n as [|n IH]; intros r.
  - simpl. rewrite drop_0. unfold pipe.stream. simpl. rewrite app_nil_r.
    repeat split. intros i b Hi. done.
  - simpl. destruct (Cache_step r) as (Hrd & Hc & Hb).
    destruct (Cache r) as [r1 b1]. simpl in Hrd, Hc, Hb.
    destruct (IH r1) as (Hrd' & Hc' & Hbs).
    destruct (Cache_n n r1) as [r2 bs]. simpl in *.
    split; [|split].
    + rewrite Hrd', Hrd. rewrite drop_drop. done.
    + rewrite Hc', Hc, Hrd, <- app_assoc. f_equal.
      symmetry. apply stream_take_S.
    + intros [|i] b Hi; simpl in Hi.
      * injection Hi as <-. by rewrite Hb, Hc.
      * rewrite (Hbs i b Hi), Hc, Hrd, <- app_assoc. do 2 f_equal.
        symmetry. apply (stream_take_S (S i)).
Qed.

Lemma deliveries_cons mb rd :
  deliveries (mb :: rd)
  = if buf.IsEmpty mb then deliveries rd else mb :: deliveries rd.
Proof.
  unfold deliveries. rewrite filter_cons.
  destruct (buf.IsEmpty mb); [by rewrite decide_False | by rewrite decide_True].
Qed.

Lemma stream_deliveries rd :
  concat (map buf.Bytes (deliveries rd)) = pipe.stream rd.
Proof.
  induction rd as [|mb rd IH]; [done|].
  rewrite deliveries_cons. change (pipe.stream (mb :: rd)) with (buf.Bytes mb ++ pipe.stream rd).
  destruct (buf.IsEmpty mb) eqn:E; simpl.
  - by rewrite (IsEmpty_Bytes _ E), IH.
  - by rewrite IH.
Qed.

Lemma ReadAll_drained rd : ∀ (c : buf.MultiBuffer) (fuel : nat),
  buf.IsEmpty c = true → (length rd < fuel)%nat →
  ReadAll fuel {| reader := rd; cache := c |} = Some (deliveries rd).
Proof.
  induction rd as [|mb rd IH]; intros c fuel Hc Hfuel;
    (destruct fuel as [|fuel]; [simpl in Hfuel; lia|]).
  - simpl. unfold ReadMultiBuffer, readInternal. simpl. rewrite Hc. done.
  - rewrite deliveries_cons.
    destruct (buf.IsEmpty mb) eqn:E.
    + rewrite <- (IH c (S fuel) Hc ltac:(simpl in Hfuel; lia)).
      simpl. unfold ReadMultiBuffer, readInternal. simpl.
      rewrite Hc. simpl. rewrite E. done.
    + simpl. unfold ReadMultiBuffer, readInternal. simpl.
      rewrite Hc. simpl. rewrite E.
      rewrite (IH c fuel Hc ltac:(simpl in Hfuel; lia)). done.
Qed.

(** Reading a cached reader to the end returns the cache and then the rest
    of the underlying stream. *)
Lemma ReadAll_spec r (k : nat) :
  ReadAll (length (reader r) + 2 + k) r
  = Some ((if buf.IsEmpty (cache r) then [] else [cache r])
          ++ deliveries (reader r)) ∧
  concat (map buf.Bytes ((if buf.IsEmpty (cache r) then [] else [cache r])
                         ++ deliveries (reader r)))
  = buf.Bytes (cache r) ++ pipe.stream (reader r).
Proof.
  destruct r as [rd c]. simpl.
  destruct (buf.IsEmpty c) eqn:E; simpl; split.
  - apply ReadAll_drained; [done | lia].
  - by rewrite stream_deliveries, (IsEmpty_Bytes _ E).
  - replace (length rd + 2 + k)%nat with (S (length rd + 1 + k)) by lia.
    simpl. unfold ReadMultiBuffer, readInternal. simpl. rewrite E. simpl.
    rewrite ReadAll_drained; [done | done | lia].
  - by rewrite stream_deliveries.
Qed.

Lemma Cache_n_length (n : nat) : ∀ r, length (Cache_n n r).2 = n.
Proof.
  induction n as [|n IH]; intros r; simpl; [done|].
  destruct (Cache r) as [r1 b1]. specialize (IH r1).
  destruct (Cache_n n r1) as [r2 bs]. simpl in *. by rewrite IH.
Qed.

Lemma take_min_length {A} (l : list A) (n : nat) :
  take (Nat.min (length l) n) l = take n l.
Proof.
  destruct (Nat.le_ge_cases (length l) n).
  - rewrite Nat.min_l by done. by rewrite !take_ge by lia.
  - by rewrite Nat.min_r by done.
Qed.

(** C10.  For every sequence of [n] Cache calls on a cached reader: the
    underlying reader has advanced by exactly [n] deliveries and the cache
    holds its former bytes followed by every byte that arrived, so nothing
    cached is consumed or lost; and the scratch left by the [i]-th call is
    exactly the first [min (cache length) buf.Size] bytes of the cache as
    it stands after that call. *)
Theorem Cache_appends_and_exposes_prefix (n : nat) (r : cachedReader) :
  reader (Cache_n n r).1 = drop n (reader r) ∧
  buf.Bytes (cache (Cache_n n r).1)
    = buf.Bytes (cache r) ++ pipe.stream (take n (reader r)) ∧
  (Cache_n n r).2
    = map (λ i : nat,
             let cached := buf.Bytes (cache (Cache_n (S i) r).1) in
             take (Nat.min (length cached) buf.Size) cached)
          (seq 0 n).
Proof.
  destruct (Cache_n_spec n r) as (Hrd & Hc & Hbs).
  split; [done|]. split; [done|].
  apply list_eq. intros i.
  rewrite list_lookup_fmap.
  destruct (decide (i < n)%nat) as [Hlt|Hge].
  - rewrite lookup_seq_lt by done.
    destruct (lookup_lt_is_Some_2 (Cache_n n r).2 i) as [b Hb].
    { by rewrite Cache_n_length. }
    rewrite Hb, (Hbs i b Hb).
    destruct (Cache_n_spec (S i) r) as (_ & Hi & _).
    cbv beta zeta. rewrite Nat.add_0_l.
    change (Some ?x = ?f <$> Some ?y) with (Some x = Some (f y)).
    cbv beta. rewrite take_min_length, Hi. done.
  - rewrite lookup_seq_ge by lia. simpl.
    apply lookup_ge_None. rewrite Cache_n_length. lia.
Qed.


End cachedReader_facts.

(** ** The sniff loop *)

Section sniffer_facts.

Import sniff.

Context {SnifferState : Type}.
Variable NewSniffer : SnifferState.
Variable Sniff : SnifferState → list byte → SniffReturn * SnifferState.
Variable ctx_err : nat → option ctx_error.
Hypothesis Sniff_ok : ∀ st p, Sniff_contract (Sniff st p).1.


Lemma Buffer_nonempty (p : buf.Buffer) : buf.Buffer_IsEmpty p = false → p ≠ [].
Proof. by intros H ->. Qed.


Lemma last_two_app {A} (x y : A) (l : list A) :
  l ≠ [] → last (x :: y :: l) = last l.
Proof. destruct l; [done|]. done. Qed.


End sniffer_facts.



(** ** Dispatch *)

Section Dispatch_facts.

Import dispatcher.

Implicit Types (d : Features) (ctx : Context) (destination : Destination).

(** The events of [getLink] when the limiter was asked and refused. *)
Lemma getLink_reject d ctx tag email ip bucket ok :
  In (EvGetUserBucket tag email ip bucket ok true) (getLink d ctx).2 →
  Reader (getLink d ctx).1.1 = PipeReader downlink ∧
  In (EvClose (PipeWriter downlink)) (getLink d ctx).2 ∧
  In (EvClose (PipeWriter uplink)) (getLink d ctx).2 ∧
  In (EvInterrupt (PipeReader uplink)) (getLink d ctx).2 ∧
  In (EvInterrupt (PipeReader downlink)) (getLink d ctx).2 ∧
  ∃ si user, inbound ctx = Some si ∧ User si = Some user ∧ Email user ≠ "" ∧
             tag = Tag si ∧ email = Email user ∧ ip = Source si ∧
             GetUserBucket d (Tag si) (Email user) (Source si) = (bucket, ok, true).
Proof.
  unfold getLink.
  destruct (inbound ctx) as [si|] eqn:Hin; [|simpl; intuition discriminate].
  destruct (User si) as [user|] eqn:Hu; [|simpl; intuition discriminate].
  destruct (Nat.ltb_spec 0 (String.length (Email user))) as [Hlen|Hlen];
    [|simpl; intuition discriminate].
  destruct (GetUserBucket d (Tag si) (Email user) (Source si))
    as [[bucket' ok'] reject] eqn:HB.
  destruct reject; simpl.
  - intros [H|[H|[H|H]]]; try discriminate.
    + injection H as <- <- <- <- <-.
      repeat split; auto 10.
      exists si, user. repeat split; try done.
      intros He. rewrite He in Hlen. simpl in Hlen. lia.
    + intuition discriminate.
  - intuition discriminate.
Qed.

Lemma getLink_no_Detect d ctx tag dest email hit :
  ¬ In (EvDetect tag dest email hit) (getLink d ctx).2.
Proof.
  unfold getLink.
  destruct (inbound ctx) as [si|]; [|simpl; intuition discriminate].
  destruct (User si) as [user|]; [|simpl; intuition discriminate].
  destruct (Nat.ltb 0 (String.length (Email user))); [|simpl; intuition discriminate].
  destruct (GetUserBucket d (Tag si) (Email user) (Source si)) as [[b ok] reject].
  destruct reject; simpl; intuition discriminate.
Qed.

(** The shape of every run of [Dispatch]. *)
Lemma Dispatch_cases d ctx destination :
  (IsValid destination = false ∧
     Dispatch d ctx destination = (Panic "Dispatcher: Invalid destination.", []))
  ∨ (IsValid destination = true ∧
     (inbound ctx = None ∨ ∃ si, inbound ctx = Some si ∧ User si = None) ∧
     Dispatch d ctx destination = (Panic nil_dereference, []))
  ∨ (∃ si user, IsValid destination = true ∧
       inbound ctx = Some si ∧ User si = Some user ∧
       Detect d (Tag si) (Destination_String destination) (Email user) = true ∧
       Dispatch d ctx destination
       = (Return None (Some errRejectedByRule),
          [EvDetect (Tag si) (Destination_String destination) (Email user) true;
           EvLog ("User " +:+ Email user +:+ " access " +:+
                  Destination_String destination +:+ " reject by rule")]))
  ∨ (∃ si user task, IsValid destination = true ∧
       inbound ctx = Some si ∧ User si = Some user ∧
       Detect d (Tag si) (Destination_String destination) (Email user) = false ∧
       Dispatch d ctx destination
       = (Return (Some (getLink d (ContextWithOutbound ctx destination)).1.1) None,
          EvDetect (Tag si) (Destination_String destination) (Email user) false
          :: (getLink d (ContextWithOutbound ctx destination)).2 ++ [EvGo task])).
Proof.
  unfold Dispatch.
  destruct (IsValid destination) eqn:Hv; simpl; [|by left].
  right.
  destruct (inbound ctx) as [si|] eqn:Hin; [|left; eauto].
  destruct (User si) as [user|] eqn:Hu; [|left; eauto 6].
  right.
  destruct (Detect d (Tag si) (Destination_String destination) (Email user)) eqn:HD.
  - left. exists si, user. done.
  - right.
    destruct (getLink d (ContextWithOutbound ctx destination)) as [[inb outb] built].
    simpl. destruct (content ctx) as [c|]; simpl; eauto 10.
Qed.

End Dispatch_facts.

(** C2.  Whenever [Limiter.GetUserBucket] is asked during a Dispatch call
    and answers [reject = true] (which happens only for an inbound session
    with a user whose e-mail is not empty), the dispatcher closes the writer
    of the outbound link and the writer of the inbound link, interrupts the
    reader of the outbound link and the reader of the inbound link (the four
    ends of the two pipes), and Dispatch still returns the inbound link,
    whose reader is the downlink reader, with a nil error. *)
Theorem Dispatch_device_limit_teardown (d : dispatcher.Features)
    (ctx : dispatcher.Context) (destination : dispatcher.Destination)
    (tag email ip : string) (bucket : option dispatcher.Bucket) (ok : bool) :
  In (dispatcher.EvGetUserBucket tag email ip bucket ok true)
     (dispatcher.Dispatch d ctx destination).2 →
  (∃ si user, dispatcher.inbound ctx = Some si ∧
              dispatcher.User si = Some user ∧ dispatcher.Email user ≠ "" ∧
              tag = dispatcher.Tag si ∧ email = dispatcher.Email user ∧
              ip = dispatcher.Source si) ∧
  (∃ inboundLink,
     (dispatcher.Dispatch d ctx destination).1
       = dispatcher.Return (Some inboundLink) None ∧
     dispatcher.Reader inboundLink = dispatcher.PipeReader dispatcher.downlink) ∧
  In (dispatcher.EvClose (dispatcher.PipeWriter dispatcher.downlink))
     (dispatcher.Dispatch d ctx destination).2 ∧
  In (dispatcher.EvClose (dispatcher.PipeWriter dispatcher.uplink))
     (dispatcher.Dispatch d ctx destination).2 ∧
  In (dispatcher.EvInterrupt (dispatcher.PipeReader dispatcher.uplink))
     (dispatcher.Dispatch d ctx destination).2 ∧
  In (dispatcher.EvInterrupt (dispatcher.PipeReader dispatcher.downlink))
     (dispatcher.Dispatch d ctx destination).2.
Proof.
  intros Hin.
  destruct (Dispatch_cases d ctx destination)
    as [[_ E]|[(_ & _ & E)|[(si & user & _ & _ & _ & _ & E)
       |(si & user & task & _ & Hi & Hu & _ & E)]]];
    rewrite E in Hin |- *; simpl in Hin.
  - done.
  - done.
  - destruct Hin as [H|[H|H]]; try discriminate; done.
  - destruct Hin as [H|Hin]; [discriminate|].
    apply in_app_or in Hin as [Hin|[H|[]]]; [|discriminate].
    destruct (getLink_reject _ _ _ _ _ _ _ Hin)
      as (Hr & H1 & H2 & H3 & H4 & si' & user' & Hi' & Hu' & He & Ht & Hm & Hs & HB).
    split; [exists si', user'; done|].
    split; [eexists; split; [reflexivity | done]|].
    simpl. repeat split; right; apply in_or_app; left; done.
Qed.

Lemma Dispatch_device_limit_teardown_witness :
  In (dispatcher.EvGetUserBucket "V2ray_443" "u@x" "1.1.1.1" None false true)
     (dispatcher.Dispatch dispatcher.limiting_features dispatcher.ctx_user
        dispatcher.dest_ads).2 ∧
  In (dispatcher.EvInterrupt (dispatcher.PipeReader dispatcher.downlink))
     (dispatcher.Dispatch dispatcher.limiting_features dispatcher.ctx_user
        dispatcher.dest_ads).2.
Proof.
  split.
  - vm_compute. tauto.
  - apply (Dispatch_device_limit_teardown dispatcher.limiting_features
             dispatcher.ctx_user dispatcher.dest_ads
             "V2ray_443" "u@x" "1.1.1.1" None false).
    vm_compute. tauto.
Defined.

(** C3.  In a Dispatch call with a valid destination in which
    [RuleManager.Detect] is asked and answers true — it is asked with the
    inbound tag, the destination string and the user's e-mail — Dispatch
    returns a nil link with the rule-rejection error; the call consists of
    the rule check and one log line, so no pipe is created, the limiter is
    not asked and no task is started.  And over all calls, an error
    returned by Dispatch is always this one, returned with a nil link. *)
Theorem Dispatch_rejected_by_rule (d : dispatcher.Features)
    (ctx : dispatcher.Context) (destination : dispatcher.Destination)
    (tag dest email : string) :
  dispatcher.IsValid destination = true →
  In (dispatcher.EvDetect tag dest email true)
     (dispatcher.Dispatch d ctx destination).2 →
  (∃ si user, dispatcher.inbound ctx = Some si ∧
              dispatcher.User si = Some user ∧
              tag = dispatcher.Tag si ∧
              dest = dispatcher.Destination_String destination ∧
              email = dispatcher.Email user ∧
              dispatcher.Detect d tag dest email = true) ∧
  (dispatcher.Dispatch d ctx destination).1
    = dispatcher.Return None (Some dispatcher.errRejectedByRule) ∧
  (∃ msg, (dispatcher.Dispatch d ctx destination).2
          = [dispatcher.EvDetect tag dest email true; dispatcher.EvLog msg]) ∧
  (∀ d' ctx' destination' link err,
     (dispatcher.Dispatch d' ctx' destination').1 = dispatcher.Return link (Some err) →
     link = None ∧ err = dispatcher.errRejectedByRule).
Proof.
  intros Hvalid Hin.
  assert (∀ d' ctx' destination' link err,
     (dispatcher.Dispatch d' ctx' destination').1 = dispatcher.Return link (Some err) →
     link = None ∧ err = dispatcher.errRejectedByRule) as Honly.
  { intros d' ctx' destination' link err.
    destruct (Dispatch_cases d' ctx' destination')
      as [[_ E]|[(_ & _ & E)|[(si & user & _ & _ & _ & _ & E)
         |(si & user & task & _ & _ & _ & _ & E)]]];
      rewrite E; simpl; intros H; try discriminate.
    by injection H as <- <-. }
  destruct (Dispatch_cases d ctx destination)
    as [[_ E]|[(_ & _ & E)|[(si & user & _ & Hi & Hu & HD & E)
       |(si & user & task & _ & Hi & Hu & HD & E)]]];
    rewrite E in Hin |- *; simpl in Hin.
  - done.
  - done.
  - destruct Hin as [H|[H|[]]]; [|discriminate].
    injection H as <- <- <-.
    split; [exists si, user; done|].
    split; [done|]. split; [eexists; reflexivity | done].
  - exfalso. destruct Hin as [H|Hin]; [discriminate|].
    apply in_app_or in Hin as [Hin|[H|[]]]; [|discriminate].
    by apply getLink_no_Detect in Hin.
Qed.

Lemma Dispatch_rejected_by_rule_witness :
  dispatcher.IsValid dispatcher.dest_ads = true ∧
  In (dispatcher.EvDetect "V2ray_443" "tcp:ads.example:80" "u@x" true)
     (dispatcher.Dispatch dispatcher.ruled_features dispatcher.ctx_user
        dispatcher.dest_ads).2 ∧
  (dispatcher.Dispatch dispatcher.ruled_features dispatcher.ctx_user
     dispatcher.dest_ads).1
  = dispatcher.Return None (Some dispatcher.errRejectedByRule).
Proof.
  split; [reflexivity|]. split; [vm_compute; tauto|].
  apply (Dispatch_rejected_by_rule dispatcher.ruled_features dispatcher.ctx_user
           dispatcher.dest_ads "V2ray_443" "tcp:ads.example:80" "u@x").
  - reflexivity.
  - vm_compute. tauto.
Defined.

(** C9.  What the code does for an anonymous inbound: with a valid
    destination and an inbound session whose [User] is nil, evaluating the
    argument [sessionInbound.User.Email] of the rule check dereferences nil,
    so Dispatch panics before any rule is evaluated and returns no link. *)
Theorem Dispatch_anonymous_inbound_panics (d : dispatcher.Features)
    (ctx : dispatcher.Context) (destination : dispatcher.Destination)
    (si : dispatcher.Inbound) :
  dispatcher.IsValid destination = true →
  dispatcher.inbound ctx = Some si →
  dispatcher.User si = None →
  dispatcher.Dispatch d ctx destination
  = (dispatcher.Panic nil_dereference, []).
Proof.
  intros Hv Hi Hu. unfold dispatcher.Dispatch. by rewrite Hv, Hi, Hu.
Qed.

Lemma Dispatch_anonymous_inbound_panics_witness :
  dispatcher.IsValid dispatcher.dest_ads = true ∧
  dispatcher.Dispatch dispatcher.plain_features dispatcher.ctx_anonymous
    dispatcher.dest_ads
  = (dispatcher.Panic nil_dereference, []).
Proof.
  split; [reflexivity|].
  apply (Dispatch_anonymous_inbound_panics dispatcher.plain_features
           dispatcher.ctx_anonymous dispatcher.dest_ads
           {| dispatcher.Source := "1.1.1.1"; dispatcher.Tag := "V2ray_443";
              dispatcher.User := None |}); reflexivity.
Defined.

(** ** routedDispatch *)

Section routedDispatch_facts.

Import dispatcher.

Lemma arrow_ne (inTag tag : string) :
  (inTag +:+ " -> " +:+ tag)%string ≠ (inTag +:+ " >> " +:+ tag)%string.
Proof.
  induction inTag as [|a inTag IH]; simpl.
  - discriminate.
  - intros H. injection H as H. by apply IH.
Qed.

Lemma eqb_empty (s : string) : String.eqb s "" = true ↔ s = "".
Proof. apply String.eqb_eq. Qed.

(** The run of [routedDispatch] once a handler is found. *)
Lemma routedDispatch_handler d ctx link destination h :
  dispatched_handler (routedDispatch d ctx link destination) = Some h →
  match route_handler d ctx destination with
  | Some h' => h = h'
  | None => GetDefaultHandler d = Some h
  end ∧
  recorded_detour (routedDispatch d ctx link destination)
  = match accessMessage ctx with
    | Some am =>
        Some (if String.eqb (HTag h) "" then Detour am
              else detour (route_picked d ctx destination) (GetInboundTag ctx) (HTag h))
    | None => None
    end.
Proof.
  unfold routedDispatch, route_handler, route_picked.
  destruct (pickRoute d ctx destination) as [[handler isPickRoute] picked] eqn:HP.
  assert (omap (λ e, match e with EvHandlerDispatch h _ _ => Some h | _ => None end) picked = []
          ∧ omap (λ e, match e with EvRecord m => Some (Detour m) | _ => None end) picked = [])
    as [Hp1 Hp2].
  { revert HP. unfold pickRoute.
    destruct (router d) as [PickRoute|]; [|by intros [= <- <- <-]].
    destruct (negb _); [|by intros [= <- <- <-]].
    destruct (PickRoute ctx) as [outTag|e]; [|by intros [= <- <- <-]].
    destruct (GetHandler d outTag); by intros [= <- <- <-]. }
  simpl.
  assert (∀ h0, dispatched_handler
            (picked ++ match accessMessage ctx with
                       | Some am => [EvRecord (if negb (String.eqb (HTag h0) "")
                            then {| From := From am; To := To am;
                                    Detour := detour isPickRoute (GetInboundTag ctx) (HTag h0) |}
                            else am)]
                       | None => []
                       end ++ [EvHandlerDispatch h0 ctx link]) = Some h0) as Hdh.
  { intros h0. unfold dispatched_handler. rewrite !omap_app, Hp1.
    destruct (accessMessage ctx); done. }
  assert (∀ h0, recorded_detour
            (picked ++ match accessMessage ctx with
                       | Some am => [EvRecord (if negb (String.eqb (HTag h0) "")
                            then {| From := From am; To := To am;
                                    Detour := detour isPickRoute (GetInboundTag ctx) (HTag h0) |}
                            else am)]
                       | None => []
                       end ++ [EvHandlerDispatch h0 ctx link])
          = match accessMessage ctx with
            | Some am => Some (if String.eqb (HTag h0) "" then Detour am
                               else detour isPickRoute (GetInboundTag ctx) (HTag h0))
            | None => None
            end) as Hrd.
  { intros h0. unfold recorded_detour. rewrite !omap_app, Hp2.
    destruct (accessMessage ctx); [|done]. simpl.
    by destruct (String.eqb (HTag h0) ""). }
  destruct handler as [h'|].
  - rewrite Hdh, Hrd. by intros [= <-].
  - destruct (GetDefaultHandler d) as [h'|].
    + rewrite Hdh, Hrd. by intros [= <-].
    + unfold dispatched_handler. rewrite omap_app, Hp1. discriminate.
Qed.

(** When the flag [isPickRoute] is set. *)
Lemma route_picked_iff d ctx destination :
  route_picked d ctx destination = true
  ↔ ∃ pick outTag, router d = Some pick ∧ pick ctx = inl outTag ∧
                   (∀ c, content ctx = Some c → SkipRoutePick c = false).
Proof.
  unfold route_picked, pickRoute.
  destruct (router d) as [pick|]; simpl.
  - destruct (content ctx) as [c|]; simpl.
    + destruct (SkipRoutePick c) eqn:Hs; simpl.
      * split; [discriminate|]. intros (p & t & _ & _ & H).
        specialize (H c eq_refl). congruence.
      * destruct (pick ctx) as [outTag|e] eqn:HP.
        -- split; [|by destruct (GetHandler d outTag)].
           intros _. exists pick, outTag. repeat split; try done.
           intros c' [= <-]. done.
        -- simpl. split; [discriminate|].
           intros (p & t & [= <-] & H & _). congruence.
    + destruct (pick ctx) as [outTag|e] eqn:HP.
      * split; [|by destruct (GetHandler d outTag)].
        intros _. exists pick, outTag. repeat split; try done.
      * simpl. split; [discriminate|].
        intros (p & t & [= <-] & H & _). congruence.
  - split; [discriminate|]. intros (p & t & H & _). discriminate.
Qed.

End routedDispatch_facts.

(** C7, as the code has it.  In a [routedDispatch] call that hands the link
    to a handler with a non-empty tag, with an access message in the
    context, the recorded [Detour] is decided by whether the router picked a
    route, not by where the handler came from: when the router was
    consulted and picked a route — also when that route's tag has no handler
    and the default handler is used — it is [inTag + " -> " + tag]; when no
    route was picked it is [inTag + " >> " + tag]; in both cases it is the
    handler's tag alone when [inTag] is empty.  For a non-empty [inTag] the
    two forms differ, so each form appears exactly in its case.  A route is
    picked exactly when there is a router, the content does not ask to skip
    the route pick, and [PickRoute] returns without error. *)
Theorem routedDispatch_detour_follows_route_pick (d : dispatcher.Features)
    (ctx : dispatcher.Context) (link : dispatcher.Link)
    (destination : dispatcher.Destination) (h : dispatcher.Handler)
    (am : dispatcher.AccessMessage) :
  dispatcher.dispatched_handler (dispatcher.routedDispatch d ctx link destination)
    = Some h →
  dispatcher.HTag h ≠ "" →
  dispatcher.accessMessage ctx = Some am →
  let inTag := dispatcher.GetInboundTag ctx in
  let tag := dispatcher.HTag h in
  let recorded :=
    dispatcher.recorded_detour (dispatcher.routedDispatch d ctx link destination) in
  (inTag = "" → recorded = Some tag) ∧
  (inTag ≠ "" →
     (recorded = Some (inTag +:+ " -> " +:+ tag)%string
      ↔ dispatcher.route_picked d ctx destination = true) ∧
     (recorded = Some (inTag +:+ " >> " +:+ tag)%string
      ↔ dispatcher.route_picked d ctx destination = false)) ∧
  (dispatcher.route_picked d ctx destination = true
   ↔ ∃ pick outTag, dispatcher.router d = Some pick ∧ pick ctx = inl outTag ∧
        (∀ c, dispatcher.content ctx = Some c → dispatcher.SkipRoutePick c = false)).
Proof.
  intros Hh Htag Ham inTag tag recorded.
  cut ((inTag = "" → recorded = Some tag) ∧
       (inTag ≠ "" →
        (recorded = Some (inTag +:+ " -> " +:+ tag)%string
         ↔ dispatcher.route_picked d ctx destination = true) ∧
        (recorded = Some (inTag +:+ " >> " +:+ tag)%string
         ↔ dispatcher.route_picked d ctx destination = false))).
  { intros [H1 H2]. split; [done|]. split; [done|]. apply route_picked_iff. }
  destruct (routedDispatch_handler d ctx link destination h Hh) as [_ Hrec].
  rewrite Ham in Hrec.
  assert (String.eqb (dispatcher.HTag h) "" = false) as Hne.
  { apply not_true_is_false. by rewrite eqb_empty. }
  rewrite Hne in Hrec. subst recorded. rewrite Hrec. fold inTag tag.
  unfold dispatcher.detour. split.
  - intros ->. by destruct (dispatcher.route_picked d ctx destination).
  - intros Hin.
    assert (String.eqb inTag "" = false) as ->.
    { apply not_true_is_false. by rewrite eqb_empty. }
    pose proof (arrow_ne inTag tag) as Hdiff.
    destruct (dispatcher.route_picked d ctx destination); simpl; split; split;
      try done; intros [= H]; congruence.
Qed.

Lemma routedDispatch_detour_follows_route_pick_witness :
  dispatcher.HTag {| dispatcher.HTag := "proxy" |} ≠ "" ∧
  (dispatcher.recorded_detour
     (dispatcher.routedDispatch dispatcher.routed_features dispatcher.ctx_user
        dispatcher.sample_link dispatcher.dest_ads)
   = Some "V2ray_443 -> proxy"
   ↔ dispatcher.route_picked dispatcher.routed_features dispatcher.ctx_user
       dispatcher.dest_ads = true).
Proof.
  split; [discriminate|].
  destruct (routedDispatch_detour_follows_route_pick dispatcher.routed_features
              dispatcher.ctx_user dispatcher.sample_link dispatcher.dest_ads
              {| dispatcher.HTag := "proxy" |}
              {| dispatcher.From := "1.1.1.1"; dispatcher.To := "tcp:ads.example:80";
                 dispatcher.Detour := "" |})
    as (_ & Hforms & _).
  - reflexivity.
  - discriminate.
  - reflexivity.
  - apply Hforms. discriminate.
Defined.

(** C7, counterexample.  The router picks the tag ["missing"], for which the
    outbound manager has no handler, so the link goes to the default handler
    ["direct"]: the handler is the fallback, not the one of the picked route,
    and yet the recorded [Detour] is ["V2ray_443 -> direct"], not
    ["V2ray_443 >> direct"]. *)
Lemma routedDispatch_fallback_after_stale_route_counterexample :
  dispatcher.route_handler dispatcher.stale_route_features dispatcher.ctx_user
    dispatcher.dest_ads = None ∧
  dispatcher.dispatched_handler
    (dispatcher.routedDispatch dispatcher.stale_route_features dispatcher.ctx_user
       dispatcher.sample_link dispatcher.dest_ads)
  = dispatcher.GetDefaultHandler dispatcher.stale_route_features ∧
  dispatcher.recorded_detour
    (dispatcher.routedDispatch dispatcher.stale_route_features dispatcher.ctx_user
       dispatcher.sample_link dispatcher.dest_ads)
  = Some "V2ray_443 -> direct" ∧
  dispatcher.recorded_detour
    (dispatcher.routedDispatch dispatcher.stale_route_features dispatcher.ctx_user
       dispatcher.sample_link dispatcher.dest_ads)
  ≠ Some "V2ray_443 >> direct".
Proof. repeat split; discriminate. Qed.

(** ** Controller.Close *)

(** C8, as the code has it.  When both periodic tasks exist, [Close] closes
    [nodeInfoMonitorPeriodic] first and, if that close returned no error,
    [userReportPeriodic]; when both closes succeed it returns nil.  An error
    returned by a close is given to [log.Panicf], which logs it and panics:
    [Close] does not return, and after a failure of the first close the
    second periodic is not closed.  With no periodic at all [Close] does
    nothing and returns nil. *)
Theorem Close_of_both_periodics {K : controller.Core}
    (c : controller.Controller K) (p1 p2 : controller.Periodic) :
  controller.nodeInfoMonitorPeriodic c = Some p1 →
  controller.userReportPeriodic c = Some p2 →
  controller.Close c
  = match controller.close_error p1, controller.close_error p2 with
    | None, None =>
        (controller.Returned None,
         [controller.EvPeriodicClose controller.NodeInfoMonitor;
          controller.EvPeriodicClose controller.UserReport])
    | Some e, _ =>
        (controller.Panicked
           ("node info periodic close failed: " +:+ error_string e),
         [controller.EvPeriodicClose controller.NodeInfoMonitor;
          controller.EvLogPanicf
            ("node info periodic close failed: " +:+ error_string e)])
    | None, Some e =>
        (controller.Panicked
           ("user report periodic close failed: " +:+ error_string e),
         [controller.EvPeriodicClose controller.NodeInfoMonitor;
          controller.EvPeriodicClose controller.UserReport;
          controller.EvLogPanicf
            ("user report periodic close failed: " +:+ error_string e)])
    end.
Proof.
  intros H1 H2. unfold controller.Close. rewrite H1, H2.
  destruct (controller.close_error p1), (controller.close_error p2); done.
Qed.

Lemma Close_of_both_periodics_witness :
  controller.Close controller.running_controller
  = (controller.Returned None,
     [controller.EvPeriodicClose controller.NodeInfoMonitor;
      controller.EvPeriodicClose controller.UserReport]).
Proof.
  apply (Close_of_both_periodics controller.running_controller
           {| controller.close_error := None |}
           {| controller.close_error := None |}); reflexivity.
Defined.

(** C8, counterexample.  Both periodic tasks exist and closing the first
    returns an error: [Close] panics instead of returning nil, and the
    user-report periodic is never closed. *)
Lemma Close_error_panics_counterexample :
  controller.userReportPeriodic controller.failing_close_controller
    = Some {| controller.close_error := None |} ∧
  (controller.Close controller.failing_close_controller).1
    = controller.Panicked "node info periodic close failed: busy" ∧
  (controller.Close controller.failing_close_controller).1
    ≠ controller.Returned None ∧
  ¬ In (controller.EvPeriodicClose controller.UserReport)
       (controller.Close controller.failing_close_controller).2.
Proof.
  split; [reflexivity|]. split; [reflexivity|]. split; [discriminate|].
  simpl. intros [H|[H|[]]]; discriminate.
Qed.

(** ** nodeInfoMonitor *)

Section nodeInfoMonitor_facts.

Import controller.

Context {K : Core}.

Implicit Types (c : Controller K) (w : Remote).

Local Abbreviation keeps := (keeps_users (K := K)).
Local Abbreviation logs := (logs_error (K := K)).
Local Abbreviation goeson := (goes_on (K := K)).





Lemma keeps_log_Printf msg : keeps (log_Printf msg).
Proof. by intros c. Qed.











(** The certificate check leaves the controller as it is. *)
Lemma checkCert_state w c : ∃ l, checkCert w c = (inl tt, c, l).
Proof.
  unfold checkCert, bind, get, logged, bind, ret, log_Print.
  destruct (_ && _); [|eauto].
  destruct (lego_New w), (RenewCert w); simpl; eauto.
Qed.


Lemma bind_get {A} (k : Controller K → M A) c : bind get k c = k c c.
Proof. unfold bind, get. by destruct (k c c) as [[r c'] l]. Qed.

Lemma bind_ret {A B} (a : A) (k : A → M B) c : bind (ret a) k c = k a c.
Proof. unfold bind, ret. by destruct (k a c) as [[r c'] l]. Qed.

Lemma bind_step {A B} (m : M A) (k : A → M B) c a c1 l :
  m c = (inl a, c1, l) →
  bind m k c = ((k a c1).1.1, (k a c1).1.2, l ++ (k a c1).2).
Proof. intros H. unfold bind. rewrite H. by destruct (k a c1) as [[r c'] l']. Qed.



Lemma goes_on_call op : goeson (call op).
Proof. intros c. unfold call. destruct (op (server c)). eauto. Qed.

Lemma goes_on_as_result (m : M unit) : goeson (as_result m).
Proof. intros c. unfold as_result. destruct (m c) as [[[a|e] c1] l]; eauto. Qed.




End nodeInfoMonitor_facts.




(** ** compareUserList beyond duplicate-free input *)

Section compareUserList_more.

Import controller_diff.

Implicit Types (old new set ks : list UserInfo) (m msrc mall : umap).

Lemma count_occ_elem_of new (u : UserInfo) :
  u ∈ new ↔ (1 ≤ count_occ UserInfo_eq_dec new u)%nat.
Proof. rewrite list_elem_of_In, (count_occ_In UserInfo_eq_dec). lia. Qed.

Lemma merge_step_dom mall set (v : UserInfo) :
  merge_step (mall, set) v
  = if decide (v ∈ dom mall) then (<[v := x01]> mall, set ++ [v])
    else (<[v := x01]> mall, set).
Proof.
  unfold merge_step. case_decide as Hsz; case_decide as Hin; try done.
  - apply size_insert_changes in Hsz. done.
  - apply (size_insert_changes _ _ x01) in Hin. by destruct Hin.
Qed.

(** Loop 2 on any list: an element lands in [set] when it was already
    indexed, or when it occurs in [new] for the second time. *)
Lemma merge_new_any new : ∀ mall set,
  dom (foldl merge_step (mall, set) new).1 = dom mall ∪ list_to_set new ∧
  ∀ u, u ∈ (foldl merge_step (mall, set) new).2
       ↔ u ∈ set ∨ (u ∈ new ∧ u ∈ dom mall)
         ∨ (2 ≤ count_occ UserInfo_eq_dec new u)%nat.
Proof.
  induction new as [|v new IH]; intros mall set.
  - simpl. split; [set_solver|]. intros u. split; [auto|].
    intros [H|[[H _]|H]]; [done | by apply not_elem_of_nil in H | lia].
  - cbn [foldl]. rewrite merge_step_dom.
    case_decide as Hin.
    + destruct (IH (<[v := x01]> mall) (set ++ [v])) as [Hd Hs]. split.
      * rewrite Hd, dom_insert_L. set_solver.
      * intros u. rewrite Hs, dom_insert_L.
        destruct (decide (v = u)) as [->|Hne].
        -- rewrite count_occ_cons_eq by done. set_solver.
        -- rewrite count_occ_cons_neq by done. set_solver.
    + destruct (IH (<[v := x01]> mall) set) as [Hd Hs]. split.
      * rewrite Hd, dom_insert_L. set_solver.
      * intros u. rewrite Hs, dom_insert_L.
        destruct (decide (v = u)) as [->|Hne].
        -- rewrite count_occ_cons_eq by done.
           pose proof (count_occ_elem_of new u) as Hc.
           rewrite !elem_of_cons, !elem_of_union, elem_of_singleton, Hc.
           split.
           ++ intros [?|[[? _]|?]]; [auto | right; right; lia | right; right; lia].
           ++ intros [?|[[? ?]|?]]; [auto | done | right; left; split; [lia | auto]].
        -- rewrite count_occ_cons_neq by done. set_solver.
Qed.

(** Loop 4 is a pair of filters over the iteration order. *)
Lemma split_changes_filter msrc ks : ∀ deleted added,
  foldl (split_step msrc) (deleted, added) ks
  = (deleted ++ filter (λ v, v ∈ dom msrc) ks,
     added ++ filter (λ v, v ∉ dom msrc) ks).
Proof.
  induction ks as [|v ks IH]; intros deleted added; simpl.
  - by rewrite !app_nil_r.
  - rewrite !filter_cons. destruct (msrc !! v) as [b|] eqn:E.
    + assert (v ∈ dom msrc) by (apply elem_of_dom; eauto).
      rewrite IH, decide_True, decide_False by auto.
      by rewrite <- app_assoc.
    + assert (v ∉ dom msrc) by (by apply not_elem_of_dom).
      rewrite IH, decide_False, decide_True by auto.
      by rewrite <- app_assoc.
Qed.

Lemma keys_NoDup m : NoDup (keys m).
Proof. apply NoDup_fst_map_to_list. Qed.

(** Membership in the results of [compareUserList] on arbitrary lists. *)
Lemma compareUserList_members_any order old new deleted added :
  range_order order →
  compareUserList_in_order order old new = (deleted, added) →
  (∀ u, u ∈ deleted ↔ u ∈ old ∧ u ∉ new) ∧
  (∀ u, u ∈ added ↔ (u ∉ old) ∧ (count_occ UserInfo_eq_dec new u = 1)%nat).
Proof.
  intros Hord.
  unfold compareUserList_in_order, index_old, merge_new.
  rewrite index_old_pair.
  set (m0 := foldl (λ m v, <[v := x00]> m) ∅ old).
  assert (dom m0 = list_to_set old) as Hm0.
  { unfold m0. rewrite dom_foldl_insert. set_solver. }
  destruct (merge_new_any new m0 []) as [Hd Hs].
  destruct (foldl merge_step (m0, []) new) as [mall set] eqn:E2.
  simpl in Hd, Hs.
  destruct (split_changes_spec m0 (order (drop_common set mall)) [] [])
    as [H1 H2].
  unfold split_changes. intros Heq. rewrite Heq in H1, H2.
  simpl in H1, H2.
  assert (∀ u, u ∈ order (drop_common set mall) ↔
               (u ∈ old ∨ u ∈ new) ∧ u ∉ set) as Hk.
  { intros u. rewrite (Hord _), elem_of_keys, dom_drop_common.
    rewrite elem_of_difference, Hd, Hm0, elem_of_union, !elem_of_list_to_set. done. }
  split; intros u; [rewrite H1 | rewrite H2]; rewrite Hk, Hs, Hm0,
    elem_of_list_to_set; pose proof (count_occ_elem_of new u);
    pose proof (not_elem_of_nil u).
  - split.
    + intros [?|[[[Ho|Hn] Hns] Ho']]; [done| |].
      * split; [done|]. intros Hn. apply Hns. auto.
      * exfalso. apply Hns. auto.
    + intros [Ho Hn]. right. split; [|done]. split; [auto|].
      intros [?|[[? ?]|?]]; [done | done | ]. apply Hn, H. lia.
  - split.
    + intros [?|[[[Ho|Hn] Hns] Ho']]; [done | done |].
      split; [done|]. apply H in Hn.
      destruct (decide (2 ≤ count_occ UserInfo_eq_dec new u)%nat); [|lia].
      exfalso. apply Hns. auto.
    + intros [Ho Hc]. right. split; [|done]. split; [right; apply H; lia|].
      intros [?|[[? ?]|?]]; [done | done | lia].
Qed.

End compareUserList_more.

(** X1.  [compareUserList] on arbitrary lists, duplicates allowed, for every
    iteration order of the final map: [deleted] holds exactly the records of
    [old] that do not occur in [new]; [added] holds exactly the records
    that are not in [old] and occur in [new] exactly once.  A new record
    that the panel lists twice is therefore not reported as added. *)
Theorem compareUserList_with_duplicates
    (order : gmap UserInfo byte → list UserInfo)
    (old new deleted added : list UserInfo) :
  controller_diff.range_order order →
  controller_diff.compareUserList_in_order order old new = (deleted, added) →
  (∀ u, u ∈ deleted ↔ u ∈ old ∧ u ∉ new) ∧
  (∀ u, u ∈ added ↔ (u ∉ old) ∧ (count_occ UserInfo_eq_dec new u = 1)%nat).
Proof. apply compareUserList_members_any. Qed.

Lemma compareUserList_with_duplicates_witness :
  controller_diff.compareUserList [user_A] [user_B; user_C; user_C]
    = ([user_A], [user_B]) ∧
  (∀ u, u ∈ [user_B] ↔
        (u ∉ [user_A]) ∧
        (count_occ UserInfo_eq_dec [user_B; user_C; user_C] u = 1)%nat).
Proof.
  split; [by vm_compute|].
  apply (compareUserList_with_duplicates controller_diff.keys
           [user_A] [user_B; user_C; user_C] [user_A] [user_B]).
  - intros m. reflexivity.
  - by vm_compute.
Defined.

(** X2.  Whatever the input lists and the iteration order, neither result
    of [compareUserList] lists a record twice, and no record is in both
    results. *)
Theorem compareUserList_results_NoDup
    (order : gmap UserInfo byte → list UserInfo)
    (old new deleted added : list UserInfo) :
  controller_diff.range_order order →
  controller_diff.compareUserList_in_order order old new = (deleted, added) →
  NoDup deleted ∧ NoDup added ∧ (∀ u, u ∈ deleted → u ∉ added).
Proof.
  intros Hord.
  unfold controller_diff.compareUserList_in_order.
  destruct (controller_diff.index_old old) as [msrc mall0].
  destruct (controller_diff.merge_new new mall0) as [mall set].
  unfold controller_diff.split_changes. rewrite split_changes_filter. simpl.
  intros [= <- <-].
  assert (NoDup (order (controller_diff.drop_common set mall))) as Hnd.
  { rewrite (Hord _). apply keys_NoDup. }
  split; [by apply NoDup_filter|]. split; [by apply NoDup_filter|].
  intros u [Hu _]%list_elem_of_filter [Hu' _]%list_elem_of_filter. done.
Qed.

Lemma compareUserList_results_NoDup_witness :
  NoDup [user_A] ∧ NoDup [user_B] ∧ (∀ u, u ∈ [user_A] → u ∉ [user_B]).
Proof.
  apply (compareUserList_results_NoDup controller_diff.keys
           [user_A; user_A] [user_B; user_C; user_C] [user_A] [user_B]).
  - intros m. reflexivity.
  - by vm_compute.
Defined.

(** Equal record sets give an empty diff. *)
Lemma compareUserList_same_any
    (order : gmap UserInfo byte → list UserInfo) (old new : list UserInfo) :
  controller_diff.range_order order →
  (∀ u, u ∈ old ↔ u ∈ new) →
  controller_diff.compareUserList_in_order order old new = ([], []).
Proof.
  intros Hord Hsame.
  destruct (controller_diff.compareUserList_in_order order old new)
    as [deleted added] eqn:Hrun.
  destruct (compareUserList_members_any order old new deleted added Hord Hrun)
    as [Hdel Hadd].
  f_equal.
  - destruct deleted as [|u l]; [done|]. exfalso.
    destruct (proj1 (Hdel u)) as [Ho Hn]; [left|]. by apply Hn, Hsame.
  - destruct added as [|u l]; [done|]. exfalso.
    destruct (proj1 (Hadd u)) as [Ho Hc]; [left|].
    apply Ho, Hsame, count_occ_elem_of. lia.
Qed.

(** X3.  When [old] and [new] hold the same records — the same list, a
    reordering of it, or the same records with other multiplicities —
    [compareUserList] reports nothing deleted and nothing added. *)
Theorem compareUserList_same_records
    (order : gmap UserInfo byte → list UserInfo) (old new : list UserInfo) :
  controller_diff.range_order order →
  (∀ u, u ∈ old ↔ u ∈ new) →
  controller_diff.compareUserList_in_order order old new = ([], []).
Proof. apply compareUserList_same_any. Qed.

Lemma compareUserList_same_records_witness :
  controller_diff.compareUserList [user_A; user_B] [user_B; user_A; user_B]
  = ([], []).
Proof.
  apply (compareUserList_same_records controller_diff.keys
           [user_A; user_B] [user_B; user_A; user_B]).
  - intros m. reflexivity.
  - intros u. rewrite !elem_of_cons. rewrite elem_of_nil. tauto.
Defined.

(** X4.  For duplicate-free lists, swapping the arguments of
    [compareUserList] swaps its results: what one direction reports as
    deleted the other reports as added, and conversely. *)
Theorem compareUserList_swap
    (order : gmap UserInfo byte → list UserInfo)
    (old new deleted added deleted' added' : list UserInfo) :
  NoDup old → NoDup new → controller_diff.range_order order →
  controller_diff.compareUserList_in_order order old new = (deleted, added) →
  controller_diff.compareUserList_in_order order new old = (deleted', added') →
  (∀ u, u ∈ deleted' ↔ u ∈ added) ∧ (∀ u, u ∈ added' ↔ u ∈ deleted).
Proof.
  intros Hold Hnew Hord H1 H2.
  destruct (compareUserList_members order old new deleted added Hnew Hord H1)
    as [Hd Ha].
  destruct (compareUserList_members order new old deleted' added' Hold Hord H2)
    as [Hd' Ha'].
  split; intros u; [rewrite Hd', Ha | rewrite Ha', Hd]; tauto.
Qed.

Lemma compareUserList_swap_witness :
  (∀ u, u ∈ [user_C] ↔ u ∈ [user_C]) ∧ (∀ u, u ∈ [user_A] ↔ u ∈ [user_A]).
Proof.
  apply (compareUserList_swap controller_diff.keys
           [user_A; user_B] [user_B; user_C] [user_A] [user_C] [user_C] [user_A]).
  - apply (bool_decide_unpack _). by vm_compute.
  - apply (bool_decide_unpack _). by vm_compute.
  - intros m. reflexivity.
  - by vm_compute.
  - by vm_compute.
Defined.

(** ** shouldOverride *)

Section shouldOverride_facts.

Import dispatcher dispatch_task.

Lemma prefix_app (p s : string) :
  String.prefix p s = true ↔ ∃ rest, s = (p +:+ rest)%string.
Proof.
  revert s. induction p as [|a p IH]; intros s.
  - split; [intros _; by exists s|]. intros _. by destruct s.
  - destruct s as [|b s].
    { split; [done|]. intros [rest Hr]. discriminate Hr. }
    cbn [String.prefix].
    destruct (Ascii.ascii_dec a b) as [->|Hne].
    + rewrite IH. split; intros [rest Hr]; exists rest.
      * change (String b s = String b (p +:+ rest)). by rewrite Hr.
      * change (String b s = String b (p +:+ rest)) in Hr. by injection Hr.
    + split; [done|]. intros [rest Hr].
      change (String b s = String a (p +:+ rest)) in Hr. injection Hr as ? ?. done.
Qed.

Lemma exclude_loop_spec (domain : string) (ds : list string) (rest : bool) :
  exclude_loop domain ds rest = true ↔ (domain ∉ ds) ∧ rest = true.
Proof.
  induction ds as [|x ds IH]; simpl.
  - split; [intros ->; split; [apply not_elem_of_nil | done] | by intros [_ ?]].
  - destruct (String.eqb_spec domain x) as [->|Hne].
    + split; [done|]. intros [Hn _]. exfalso. apply Hn. left.
    + rewrite IH, not_elem_of_cons. tauto.
Qed.

Lemma override_loop_spec (protocol : string) (ps : list string) :
  override_loop protocol ps = true ↔ ∃ p, p ∈ ps ∧ HasPrefix protocol p = true.
Proof.
  induction ps as [|x ps IH]; simpl.
  - split; [done|]. intros (p & Hp & _). by apply elem_of_nil in Hp.
  - destruct (HasPrefix protocol x) eqn:E.
    + split; [|done]. intros _. exists x. split; [left | done].
    + rewrite IH. split; intros (p & Hp & Hpre).
      * exists p. split; [by right | done].
      * apply elem_of_cons in Hp as [->|Hp]; [congruence|]. eauto.
Qed.

End shouldOverride_facts.

(** X5.  [shouldOverride] answers true exactly when the sniffed domain is
    not one of the request's excluded domains and some entry of the
    request's override list is a prefix of the sniffed protocol.  An excluded
    domain wins over any protocol match; an empty override list never
    overrides. *)
Theorem shouldOverride_iff (result : sniff.SniffResult)
    (request : dispatcher.SniffingRequest) :
  dispatch_task.shouldOverride result request = true
  ↔ (sniff.Domain result ∉ dispatcher.ExcludeForDomain request) ∧
    ∃ p rest, p ∈ dispatcher.OverrideDestinationForProtocol request ∧
              sniff.Protocol result = (p +:+ rest)%string.
Proof.
  unfold dispatch_task.shouldOverride.
  rewrite exclude_loop_spec, override_loop_spec.
  unfold dispatch_task.HasPrefix. split.
  - intros [Hd (p & Hp & Hpre)]. split; [done|].
    apply prefix_app in Hpre as [rest Hr]. eauto.
  - intros [Hd (p & rest & Hp & Hr)]. split; [done|].
    exists p. split; [done|]. apply prefix_app. eauto.
Qed.

(** ** getLink *)

Section getLink_facts.

Import dispatcher dispatch_task.

Implicit Types (d : Features) (ctx : Context).

Lemma ltb_length_empty (s : string) :
  Nat.ltb 0 (String.length s) = false ↔ s = "".
Proof. destruct s; simpl; split; (done || discriminate). Qed.

End getLink_facts.

(** X6.  For a session without a named user — no inbound session in the
    context, no user on it, or a user with an empty e-mail — [getLink]
    creates the two pipes and returns the links over the bare pipe ends:
    limiter, policy and stats are not consulted and nothing is torn down. *)
Theorem getLink_anonymous (d : dispatcher.Features) (ctx : dispatcher.Context) :
  dispatch_task.named_user ctx = None →
  dispatcher.getLink d ctx
  = (dispatch_task.bare_inbound, dispatch_task.bare_outbound,
     [dispatcher.EvPipeNew dispatcher.uplink;
      dispatcher.EvPipeNew dispatcher.downlink]).
Proof.
  unfold dispatch_task.named_user, dispatcher.getLink.
  destruct (dispatcher.inbound ctx) as [si|]; [|done].
  destruct (dispatcher.User si) as [user|]; [|done].
  destruct (Nat.ltb 0 (String.length (dispatcher.Email user))); [discriminate|done].
Qed.

Lemma getLink_anonymous_witness :
  dispatcher.getLink dispatcher.limiting_features dispatcher.ctx_anonymous
  = (dispatch_task.bare_inbound, dispatch_task.bare_outbound,
     [dispatcher.EvPipeNew dispatcher.uplink;
      dispatcher.EvPipeNew dispatcher.downlink]).
Proof.
  apply (getLink_anonymous dispatcher.limiting_features dispatcher.ctx_anonymous).
  reflexivity.
Defined.

(** X7.  Whatever the session and the collaborators answer, the links
    [getLink] returns are cross-wired over the two pipes: the inbound link
    reads the downlink pipe and writes, under its wrappers, to the uplink
    pipe; the outbound link reads the uplink pipe and writes to the downlink
    pipe.  Both writers are paced by the same buckets, at most one, and the
    first two events are the creation of the uplink and the downlink pipe. *)
Theorem getLink_cross_wired (d : dispatcher.Features) (ctx : dispatcher.Context) :
  dispatcher.Reader (dispatcher.getLink d ctx).1.1
    = dispatcher.PipeReader dispatcher.downlink ∧
  dispatch_task.writer_pipe (dispatcher.Writer (dispatcher.getLink d ctx).1.1)
    = dispatcher.uplink ∧
  dispatcher.Reader (dispatcher.getLink d ctx).1.2
    = dispatcher.PipeReader dispatcher.uplink ∧
  dispatch_task.writer_pipe (dispatcher.Writer (dispatcher.getLink d ctx).1.2)
    = dispatcher.downlink ∧
  dispatch_task.writer_buckets (dispatcher.Writer (dispatcher.getLink d ctx).1.1)
    = dispatch_task.writer_buckets (dispatcher.Writer (dispatcher.getLink d ctx).1.2) ∧
  (length (dispatch_task.writer_buckets
             (dispatcher.Writer (dispatcher.getLink d ctx).1.1)) ≤ 1)%nat ∧
  take 2 (dispatcher.getLink d ctx).2
    = [dispatcher.EvPipeNew dispatcher.uplink;
       dispatcher.EvPipeNew dispatcher.downlink].
Proof.
  unfold dispatcher.getLink.
  destruct (dispatcher.inbound ctx) as [si|]; [|simpl; repeat split; lia].
  destruct (dispatcher.User si) as [user|]; [|simpl; repeat split; lia].
  destruct (Nat.ltb 0 (String.length (dispatcher.Email user)));
    [|simpl; repeat split; lia].
  destruct (dispatcher.GetUserBucket d _ _ _) as [[bucket ok] reject].
  destruct (dispatcher.ForLevel d _) as [up down].
  destruct ok, up, down; simpl;
    repeat (destruct (dispatcher.GetOrRegisterCounter d _)); simpl;
    repeat split; lia.
Qed.

(** X8.  [getLink] closes or interrupts an end of its pipes exactly when it
    asked the limiter for a named user and the limiter answered
    [reject = true]; in that case the events after the limiter call are the
    log line and the four teardown calls, in the order of the source. *)
Theorem getLink_teardown_iff_reject (d : dispatcher.Features)
    (ctx : dispatcher.Context) :
  (existsb dispatch_task.is_teardown (dispatcher.getLink d ctx).2 = true
   ↔ ∃ si user bucket ok,
       dispatch_task.named_user ctx = Some (si, user) ∧
       dispatcher.GetUserBucket d (dispatcher.Tag si) (dispatcher.Email user)
         (dispatcher.Source si) = (bucket, ok, true)) ∧
  (existsb dispatch_task.is_teardown (dispatcher.getLink d ctx).2 = true →
   ∃ msg, drop 3 (dispatcher.getLink d ctx).2
          = [dispatcher.EvLog msg;
             dispatcher.EvClose (dispatcher.PipeWriter dispatcher.downlink);
             dispatcher.EvClose (dispatcher.PipeWriter dispatcher.uplink);
             dispatcher.EvInterrupt (dispatcher.PipeReader dispatcher.uplink);
             dispatcher.EvInterrupt (dispatcher.PipeReader dispatcher.downlink)]).
Proof.
  unfold dispatch_task.named_user, dispatcher.getLink.
  destruct (dispatcher.inbound ctx) as [si|];
    [|simpl; split; [split; [done | by intros (? & ? & ? & ? & ? & _)] | done]].
  destruct (dispatcher.User si) as [user|];
    [|simpl; split; [split; [done | by intros (? & ? & ? & ? & ? & _)] | done]].
  destruct (Nat.ltb 0 (String.length (dispatcher.Email user)));
    [|simpl; split; [split; [done | by intros (? & ? & ? & ? & ? & _)] | done]].
  destruct (dispatcher.GetUserBucket d _ _ _) as [[bucket ok] reject] eqn:HB.
  destruct reject; simpl.
  - split; [|eauto]. split; [|done]. intros _. exists si, user, bucket, ok. done.
  - split; [|done]. split; [done|].
    intros (si' & user' & b & o & [= <- <-] & HB'). congruence.
Qed.

(** X9.  For a named user, the writers [getLink] returns are stacked as
    follows.  Each is paced by the limiter's bucket exactly when the limiter
    answered [ok].  The inbound writer is counted by the counter registered
    under ["user>>>" + email + ">>>traffic>>>uplink"] exactly when the
    policy of the user's level enables uplink statistics and the counter
    could be registered, the outbound writer likewise with [downlink]; and a
    counting writer is always the outermost wrapper, so bytes are counted
    before they are paced. *)
Theorem getLink_writer_stack (d : dispatcher.Features) (ctx : dispatcher.Context)
    (si : dispatcher.Inbound) (user : dispatcher.MemoryUser)
    (bucket : option dispatcher.Bucket) (ok reject : bool) :
  dispatch_task.named_user ctx = Some (si, user) →
  dispatcher.GetUserBucket d (dispatcher.Tag si) (dispatcher.Email user)
    (dispatcher.Source si) = (bucket, ok, reject) →
  let inW := dispatcher.Writer (dispatcher.getLink d ctx).1.1 in
  let outW := dispatcher.Writer (dispatcher.getLink d ctx).1.2 in
  let p := dispatcher.ForLevel d (dispatcher.Level user) in
  let counter (direction : string) :=
    dispatcher.GetOrRegisterCounter d
      ("user>>>" +:+ dispatcher.Email user +:+ ">>>traffic>>>" +:+ direction) in
  dispatch_task.writer_buckets inW = (if ok then [bucket] else []) ∧
  dispatch_task.writer_buckets outW = (if ok then [bucket] else []) ∧
  dispatch_task.writer_counters inW
    = (if dispatcher.UserUplink p then option_list (counter "uplink") else []) ∧
  dispatch_task.writer_counters outW
    = (if dispatcher.UserDownlink p then option_list (counter "downlink") else []) ∧
  (dispatch_task.writer_counters inW ≠ [] → ∃ c w, inW = dispatcher.SizeStatWriter c w) ∧
  (dispatch_task.writer_counters outW ≠ [] → ∃ c w, outW = dispatcher.SizeStatWriter c w).
Proof.
  unfold dispatch_task.named_user, dispatcher.getLink.
  destruct (dispatcher.inbound ctx) as [si'|]; [|done].
  destruct (dispatcher.User si') as [user'|]; [|done].
  destruct (Nat.ltb 0 (String.length (dispatcher.Email user'))); [|done].
  intros [= -> ->] ->.
  destruct (dispatcher.ForLevel d _) as [up down].
  destruct ok, up, down; simpl;
    repeat (destruct (dispatcher.GetOrRegisterCounter d _)); simpl;
    repeat split; try done; eauto.
Qed.

Lemma getLink_writer_stack_witness :
  dispatch_task.writer_counters
    (dispatcher.Writer
       (dispatcher.getLink dispatch_task.metered_features dispatcher.ctx_user).1.1)
  = [{| dispatcher.counter_name := "user>>>u@x>>>traffic>>>uplink" |}].
Proof.
  destruct (getLink_writer_stack dispatch_task.metered_features dispatcher.ctx_user
              {| dispatcher.Source := "1.1.1.1"; dispatcher.Tag := "V2ray_443";
                 dispatcher.User := Some dispatcher.user_ux |}
              dispatcher.user_ux (Some {| dispatcher.rate := 1000 |}) true false)
    as (_ & _ & Hc & _).
  - reflexivity.
  - reflexivity.
  - exact Hc.
Defined.

(** ** Dispatch: panics and the task it starts *)


(** The task a returning [Dispatch] has started. *)
Lemma Dispatch_task_shape (d : dispatcher.Features)
    (ctx : dispatcher.Context) (destination : dispatcher.Destination)
    (link : dispatcher.Link) :
  (dispatcher.Dispatch d ctx destination).1 = dispatcher.Return (Some link) None →
  ∃ task,
    last (dispatcher.Dispatch d ctx destination).2 = Some (dispatcher.EvGo task) ∧
    filter (λ e, dispatch_task.is_Go e = true)
           (dispatcher.Dispatch d ctx destination).2 = [dispatcher.EvGo task] ∧
    dispatcher.Reader (dispatch_task.task_link task)
      = dispatcher.PipeReader dispatcher.uplink ∧
    dispatch_task.writer_pipe (dispatcher.Writer (dispatch_task.task_link task))
      = dispatcher.downlink ∧
    dispatcher.inbound (dispatch_task.task_ctx task) = dispatcher.inbound ctx ∧
    dispatcher.outboundTarget (dispatch_task.task_ctx task) = Some destination ∧
    dispatcher.content (dispatch_task.task_ctx task)
      = Some (default dispatcher.new_Content (dispatcher.content ctx)) ∧
    (dispatch_task.task_sniffs task = true
     ↔ dispatcher.DNetwork destination = dispatcher.Network_TCP ∧
       ∃ c, dispatcher.content ctx = Some c ∧
            dispatcher.Enabled (dispatcher.CSniffingRequest c) = true).
Proof.
  unfold dispatcher.Dispatch.
  destruct (dispatcher.IsValid destination); [|discriminate].
  destruct (dispatcher.inbound ctx) as [si|] eqn:Hi; [|discriminate].
  destruct (dispatcher.User si) as [user|]; [|discriminate].
  destruct (dispatcher.Detect d _ _ _); [discriminate|]. simpl.
  pose proof (getLink_cross_wired d (dispatcher.ContextWithOutbound ctx destination))
    as (_ & _ & Hr & Hw & _ & _ & _).
  assert (∀ e, In e (dispatcher.getLink d
            (dispatcher.ContextWithOutbound ctx destination)).2 →
          dispatch_task.is_Go e = false) as HnoGo.
  { intros e. unfold dispatcher.getLink.
    destruct (dispatcher.inbound _) as [si'|]; [|simpl; intuition (by subst)].
    destruct (dispatcher.User si') as [user'|]; [|simpl; intuition (by subst)].
    destruct (Nat.ltb _ _); [|simpl; intuition (by subst)].
    destruct (dispatcher.GetUserBucket d _ _ _) as [[b ok] reject].
    destruct reject; simpl; intuition (by subst). }
  destruct (dispatcher.getLink d (dispatcher.ContextWithOutbound ctx destination))
    as [[inb outb] built].
  simpl in Hr, Hw, HnoGo.
  assert (filter (λ e, dispatch_task.is_Go e = true) built = []) as Hf.
  { clear -HnoGo. induction built as [|e built IH]; [done|].
    rewrite filter_cons, decide_False; [apply IH|].
    - intros e' He'. apply HnoGo. by right.
    - rewrite (HnoGo e); [done | by left]. }
  set (network_is_not_tcp :=
         bool_decide (dispatcher.DNetwork destination ≠ dispatcher.Network_TCP)).
  intros _.
  assert (∀ t, last (dispatcher.EvDetect (dispatcher.Tag si)
                       (dispatcher.Destination_String destination)
                       (dispatcher.Email user) false
                     :: built ++ [dispatcher.EvGo t]) = Some (dispatcher.EvGo t))
    as Hlast.
  { intros t. rewrite app_comm_cons. apply last_snoc. }
  assert (∀ t, filter (λ e, dispatch_task.is_Go e = true)
                 (dispatcher.EvDetect (dispatcher.Tag si)
                    (dispatcher.Destination_String destination)
                    (dispatcher.Email user) false
                  :: built ++ [dispatcher.EvGo t]) = [dispatcher.EvGo t]) as Hone.
  { intros t. rewrite filter_cons, decide_False by done.
    by rewrite filter_app, Hf. }
  cbn [dispatcher.content dispatcher.ContextWithOutbound].
  destruct (dispatcher.content ctx) as [c|] eqn:Hc; simpl.
  - destruct (network_is_not_tcp || negb (dispatcher.Enabled (dispatcher.CSniffingRequest c)))
      eqn:Hsel; eexists; split_and!; try done; simpl.
    + split; [done|]. intros [Htcp (c' & [= <-] & Hen)].
      unfold network_is_not_tcp in Hsel.
      rewrite bool_decide_false in Hsel by (intros H; by apply H).
      rewrite Hen in Hsel. discriminate.
    + apply orb_false_elim in Hsel as [Hn He].
      split; [|done]. intros _. split.
      * unfold network_is_not_tcp in Hn. apply bool_decide_eq_false in Hn.
        by destruct (decide (dispatcher.DNetwork destination = dispatcher.Network_TCP)).
      * exists c. split; [done|]. by apply negb_false_iff.
  - rewrite orb_true_r. eexists. split_and!; try done. simpl.
    split; [done|]. by intros [_ (c' & ? & _)].
Qed.

(** X11.  When [Dispatch] returns a link, it has started exactly one task,
    as its last action.  The task owns the outbound link, which reads the
    uplink pipe; its context carries the inbound session of the caller, the
    destination as outbound target, and a content (a fresh one when the
    caller's context had none).  The task sniffs exactly when the
    destination's network is TCP and the caller's content enables sniffing;
    without a content in the caller's context it never sniffs. *)
Theorem Dispatch_starts_one_task (d : dispatcher.Features)
    (ctx : dispatcher.Context) (destination : dispatcher.Destination)
    (link : dispatcher.Link) :
  (dispatcher.Dispatch d ctx destination).1 = dispatcher.Return (Some link) None →
  ∃ task,
    last (dispatcher.Dispatch d ctx destination).2 = Some (dispatcher.EvGo task) ∧
    filter (λ e, dispatch_task.is_Go e = true)
           (dispatcher.Dispatch d ctx destination).2 = [dispatcher.EvGo task] ∧
    dispatcher.Reader (dispatch_task.task_link task)
      = dispatcher.PipeReader dispatcher.uplink ∧
    dispatch_task.writer_pipe (dispatcher.Writer (dispatch_task.task_link task))
      = dispatcher.downlink ∧
    dispatcher.inbound (dispatch_task.task_ctx task) = dispatcher.inbound ctx ∧
    dispatcher.outboundTarget (dispatch_task.task_ctx task) = Some destination ∧
    dispatcher.content (dispatch_task.task_ctx task)
      = Some (default dispatcher.new_Content (dispatcher.content ctx)) ∧
    (dispatch_task.task_sniffs task = true
     ↔ dispatcher.DNetwork destination = dispatcher.Network_TCP ∧
       ∃ c, dispatcher.content ctx = Some c ∧
            dispatcher.Enabled (dispatcher.CSniffingRequest c) = true).
Proof. apply Dispatch_task_shape. Qed.

Lemma Dispatch_starts_one_task_witness :
  (dispatcher.Dispatch dispatcher.plain_features dispatcher.ctx_user
     dispatcher.dest_ads).1
  = dispatcher.Return (Some dispatch_task.bare_inbound) None ∧
  ∃ task,
    last (dispatcher.Dispatch dispatcher.plain_features dispatcher.ctx_user
            dispatcher.dest_ads).2 = Some (dispatcher.EvGo task) ∧
    dispatch_task.task_sniffs task = false.
Proof.
  split; [reflexivity|].
  destruct (Dispatch_starts_one_task dispatcher.plain_features dispatcher.ctx_user
              dispatcher.dest_ads dispatch_task.bare_inbound eq_refl)
    as (task & Hlast & _ & _ & _ & _ & _ & _ & Hsniff).
  exists task. split; [exact Hlast|].
  destruct (dispatch_task.task_sniffs task); [|reflexivity].
  destruct (proj1 Hsniff eq_refl) as (_ & c & Hc & _). discriminate Hc.
Defined.

(** ** routedDispatch: the fate of the link *)

Section routedDispatch_more.

Import dispatcher dispatch_task.

Lemma pickRoute_events d ctx destination e :
  In e (pickRoute d ctx destination).2 → ∃ msg, e = EvLog msg.
Proof.
  unfold pickRoute.
  destruct (router d) as [pick|]; [|done].
  destruct (negb _); [|done].
  destruct (pick ctx) as [outTag|err]; [|simpl; intuition eauto].
  destruct (GetHandler d outTag); simpl; intuition eauto.
Qed.

Lemma filter_logs {P : Event → Prop} `{∀ e, Decision (P e)} (evs : list Event) :
  (∀ e, In e evs → ∃ msg, e = EvLog msg) → (∀ msg, ¬ P (EvLog msg)) →
  filter P evs = [].
Proof.
  intros Hlog HP. induction evs as [|e evs IH]; [done|].
  rewrite filter_cons. destruct (Hlog e) as [msg ->]; [by left|].
  rewrite decide_False by apply HP. apply IH. intros e' He'. apply Hlog. by right.
Qed.

(** What [routedDispatch] does with the link, by the handler it settles
    on. *)
Lemma routedDispatch_fate d ctx link destination :
  let evs := routedDispatch d ctx link destination in
  match chosen_handler d ctx destination with
  | Some h =>
      last evs = Some (EvHandlerDispatch h ctx link) ∧
      filter (λ e, is_handover e = true) evs = [EvHandlerDispatch h ctx link] ∧
      filter (λ e, is_teardown e = true) evs = []
  | None =>
      filter (λ e, is_handover e = true) evs = [] ∧
      filter (λ e, is_teardown e = true) evs
        = [EvClose (Writer link); EvInterrupt (Reader link)] ∧
      recorded_detour evs = None
  end.
Proof.
  unfold chosen_handler, route_handler, routedDispatch.
  pose proof (pickRoute_events d ctx destination) as Hlog.
  destruct (pickRoute d ctx destination) as [[handler isPickRoute] picked].
  simpl in Hlog |- *.
  assert (filter (λ e, is_handover e = true) picked = []) as Hp1
    by (by apply filter_logs).
  assert (filter (λ e, is_teardown e = true) picked = []) as Hp2
    by (by apply filter_logs).
  assert (omap (λ e, match e with EvRecord m => Some (Detour m) | _ => None end)
               picked = []) as Hp3.
  { clear -Hlog. induction picked as [|e picked IH]; [done|].
    destruct (Hlog e) as [msg ->]; [by left|]. simpl. apply IH.
    intros e' He'. apply Hlog. by right. }
  assert (∀ h, last (picked ++
            match accessMessage ctx with
            | Some am => [EvRecord (if negb (String.eqb (HTag h) "")
                 then {| From := From am; To := To am;
                         Detour := detour isPickRoute (GetInboundTag ctx) (HTag h) |}
                 else am)]
            | None => []
            end ++ [EvHandlerDispatch h ctx link])
          = Some (EvHandlerDispatch h ctx link)) as Hlast.
  { intros h. rewrite app_assoc, last_snoc. done. }
  assert (∀ h, filter (λ e, is_handover e = true) (picked ++
            match accessMessage ctx with
            | Some am => [EvRecord (if negb (String.eqb (HTag h) "")
                 then {| From := From am; To := To am;
                         Detour := detour isPickRoute (GetInboundTag ctx) (HTag h) |}
                 else am)]
            | None => []
            end ++ [EvHandlerDispatch h ctx link])
          = [EvHandlerDispatch h ctx link]) as Hho.
  { intros h. rewrite !filter_app, Hp1. by destruct (accessMessage ctx). }
  assert (∀ h, filter (λ e, is_teardown e = true) (picked ++
            match accessMessage ctx with
            | Some am => [EvRecord (if negb (String.eqb (HTag h) "")
                 then {| From := From am; To := To am;
                         Detour := detour isPickRoute (GetInboundTag ctx) (HTag h) |}
                 else am)]
            | None => []
            end ++ [EvHandlerDispatch h ctx link])
          = []) as Htd.
  { intros h. rewrite !filter_app, Hp2. by destruct (accessMessage ctx). }
  destruct handler as [h|]; [by rewrite Hlast, Hho, Htd|].
  destruct (GetDefaultHandler d) as [h|]; [by rewrite Hlast, Hho, Htd|].
  rewrite !filter_app, Hp1, Hp2. unfold recorded_detour. rewrite omap_app, Hp3. done.
Qed.

End routedDispatch_more.

(** X12.  [routedDispatch] settles on the handler registered for the picked
    route and, failing that, on the default handler.  With a handler, its
    last action is to hand the link to that handler, exactly once, and it
    closes or interrupts nothing.  With no handler at all it hands the link
    to nobody, closes the link's writer and interrupts its reader, and
    records no access message. *)
Theorem routedDispatch_hands_over_or_closes (d : dispatcher.Features)
    (ctx : dispatcher.Context) (link : dispatcher.Link)
    (destination : dispatcher.Destination) :
  let evs := dispatcher.routedDispatch d ctx link destination in
  match dispatch_task.chosen_handler d ctx destination with
  | Some h =>
      last evs = Some (dispatcher.EvHandlerDispatch h ctx link) ∧
      filter (λ e, dispatch_task.is_handover e = true) evs
        = [dispatcher.EvHandlerDispatch h ctx link] ∧
      filter (λ e, dispatch_task.is_teardown e = true) evs = []
  | None =>
      filter (λ e, dispatch_task.is_handover e = true) evs = [] ∧
      filter (λ e, dispatch_task.is_teardown e = true) evs
        = [dispatcher.EvClose (dispatcher.Writer link);
           dispatcher.EvInterrupt (dispatcher.Reader link)] ∧
      dispatcher.recorded_detour evs = None
  end.
Proof. apply routedDispatch_fate. Qed.

(** X13.  When the content of the context asks to skip the route pick,
    [routedDispatch] behaves exactly as if the dispatcher had no router: the
    router is not consulted, the default handler is used, and the detour is
    of the unrouted form. *)
Theorem routedDispatch_skip_route_pick (d : dispatcher.Features)
    (ctx : dispatcher.Context) (link : dispatcher.Link)
    (destination : dispatcher.Destination) (c : dispatcher.Content) :
  dispatcher.content ctx = Some c →
  dispatcher.SkipRoutePick c = true →
  dispatcher.routedDispatch d ctx link destination
    = dispatcher.routedDispatch (dispatch_task.without_router d) ctx link destination ∧
  dispatch_task.chosen_handler d ctx destination = dispatcher.GetDefaultHandler d ∧
  dispatcher.route_picked d ctx destination = false.
Proof.
  intros Hc Hs.
  assert (dispatcher.pickRoute d ctx destination = (None, false, [])) as Hp.
  { unfold dispatcher.pickRoute. rewrite Hc, Hs. by destruct (dispatcher.router d). }
  unfold dispatcher.routedDispatch, dispatch_task.chosen_handler,
    dispatcher.route_handler, dispatcher.route_picked.
  rewrite Hp. done.
Qed.

Lemma routedDispatch_skip_route_pick_witness :
  dispatcher.routedDispatch dispatcher.routed_features dispatch_task.ctx_skip
    dispatcher.sample_link dispatcher.dest_ads
  = dispatcher.routedDispatch
      (dispatch_task.without_router dispatcher.routed_features)
      dispatch_task.ctx_skip dispatcher.sample_link dispatcher.dest_ads ∧
  dispatch_task.chosen_handler dispatcher.routed_features dispatch_task.ctx_skip
    dispatcher.dest_ads = Some dispatcher.direct.
Proof.
  destruct (routedDispatch_skip_route_pick dispatcher.routed_features
              dispatch_task.ctx_skip dispatcher.sample_link dispatcher.dest_ads
              {| dispatcher.CProtocol := "";
                 dispatcher.CSniffingRequest :=
                   dispatcher.CSniffingRequest dispatcher.new_Content;
                 dispatcher.SkipRoutePick := true |} eq_refl eq_refl)
    as (Heq & Hh & _).
  split; [exact Heq | exact Hh].
Defined.

(** ** cachedReader under any sequence of calls *)

Section cached_ops_facts.

Import cached cached_ops.

Lemma Cache_pending r : pending (Cache r).1 = pending r.
Proof.
  unfold pending. destruct (Cache_step r) as (Hrd & Hc & _).
  rewrite Hc, Hrd, <- app_assoc, <- stream_app. by rewrite take_drop.
Qed.

Lemma pipe_ReadMultiBuffer_stream (rd : pipe.Reader) :
  buf.Bytes (default [] (pipe.ReadMultiBuffer rd).1)
  ++ pipe.stream (pipe.ReadMultiBuffer rd).2 = pipe.stream rd.
Proof.
  induction rd as [|mb rd IH]; [done|]. simpl.
  change (pipe.stream (mb :: rd)) with (buf.Bytes mb ++ pipe.stream rd).
  destruct (buf.IsEmpty mb) eqn:E; [|done].
  by rewrite IH, (IsEmpty_Bytes _ E).
Qed.

Lemma Read_pending r :
  buf.Bytes (default [] (ReadMultiBuffer r).1) ++ pending (ReadMultiBuffer r).2
  = pending r.
Proof.
  unfold ReadMultiBuffer, readInternal, pending.
  destruct (buf.IsEmpty (cache r)) eqn:E; simpl.
  - pose proof (pipe_ReadMultiBuffer_stream (reader r)) as H.
    destruct (pipe.ReadMultiBuffer (reader r)) as [mb rd]. simpl in *.
    by rewrite (IsEmpty_Bytes _ E), <- H.
  - done.
Qed.

Lemma ReadTimeout_pending r :
  buf.Bytes (ReadMultiBufferTimeout r).1 ++ pending (ReadMultiBufferTimeout r).2
  = pending r.
Proof.
  unfold ReadMultiBufferTimeout, readInternal, pending.
  destruct (buf.IsEmpty (cache r)) eqn:E; simpl; [|done].
  destruct (reader r) as [|mb rd]; simpl; rewrite !(IsEmpty_Bytes _ E); [done|].
  change (pipe.stream (mb :: rd)) with (buf.Bytes mb ++ pipe.stream rd). done.
Qed.



Lemma run_pending (ops : list Op) : ∀ r,
  OpInterrupt ∉ ops → (run ops r).1 ++ pending (run ops r).2 = pending r.
Proof.
  induction ops as [|op ops IH]; intros r Hni; [done|].
  apply not_elem_of_cons in Hni as [Hop Hni]. simpl.
  destruct op; [| | |done].
  - specialize (IH (Cache r).1 Hni). destruct (run ops (Cache r).1) as [outs r2].
    simpl in *. by rewrite IH, Cache_pending.
  - pose proof (Read_pending r) as Hr.
    destruct (ReadMultiBuffer r) as [mb r1]. simpl in Hr.
    specialize (IH r1 Hni). destruct (run ops r1) as [outs r2]. simpl in *.
    by rewrite <- app_assoc, IH.
  - pose proof (ReadTimeout_pending r) as Hr.
    destruct (ReadMultiBufferTimeout r) as [mb r1]. simpl in Hr.
    specialize (IH r1 Hni). destruct (run ops r1) as [outs r2]. simpl in *.
    by rewrite <- app_assoc, IH.
Qed.


End cached_ops_facts.

(** X14.  Conservation of bytes over the cached reader.  For any sequence
    of [Cache], [ReadMultiBuffer] and [ReadMultiBufferTimeout] calls, in any
    order, the bytes the reads handed over, followed by the bytes the reader
    still owes (its cache, then the rest of the underlying stream), are
    exactly the bytes it owed at the start: nothing is lost, duplicated or
    reordered, however reads and peeks are interleaved. *)
Theorem cachedReader_conserves_bytes (ops : list cached_ops.Op)
    (r : cached.cachedReader) :
  cached_ops.OpInterrupt ∉ ops →
  (cached_ops.run ops r).1 ++ cached_ops.pending (cached_ops.run ops r).2
  = cached_ops.pending r.
Proof. apply run_pending. Qed.

Lemma cachedReader_conserves_bytes_witness :
  (cached_ops.run [cached_ops.OpCache; cached_ops.OpReadTimeout;
                   cached_ops.OpCache; cached_ops.OpRead]
     (cached.wrap [[[x01]]; [[x02]; [x03]]; []; [[x04]]])).1
  ++ cached_ops.pending
       (cached_ops.run [cached_ops.OpCache; cached_ops.OpReadTimeout;
                        cached_ops.OpCache; cached_ops.OpRead]
          (cached.wrap [[[x01]]; [[x02]; [x03]]; []; [[x04]]])).2
  = [x01; x02; x03; x04].
Proof.
  apply (cachedReader_conserves_bytes
           [cached_ops.OpCache; cached_ops.OpReadTimeout;
            cached_ops.OpCache; cached_ops.OpRead]
           (cached.wrap [[[x01]]; [[x02]; [x03]]; []; [[x04]]])).
  apply (bool_decide_unpack _). by vm_compute.
Defined.


(** ** The sniff loop, whatever [Sniff] does *)

Section sniffer_any.

Import sniff sniff_trace.

Context {SnifferState : Type}.
Variable Sniff : SnifferState → list byte → SniffReturn * SnifferState.
Variable ctx_err : nat → option ctx_error.

Lemma Cache_scratch_length (r : cached.cachedReader) :
  (length (cached.Cache r).2 ≤ buf.Size)%nat.
Proof. destruct (Cache_step r) as (_ & _ & ->). rewrite length_take. lia. Qed.

(** The loop with [m] attempts left, for an arbitrary [Sniff]. *)
Lemma sniffer_loop_any (m : nat) : ∀ (poll : nat) (totalAttempt : Z)
    (cReader : cached.cachedReader) (st : SnifferState),
  totalAttempt = 2 - Z.of_nat m →
  ∃ ret cReader' tr n,
    (∀ fuel, (m < fuel)%nat →
       sniffer_loop Sniff ctx_err fuel poll totalAttempt cReader st
       = Some (ret, cReader', tr)) ∧
    (n ≤ m)%nat ∧
    cReader' = (cached.Cache_n n cReader).1 ∧
    cache_payloads tr = (cached.Cache_n n cReader).2 ∧
    Forall (λ p, p ≠ [] ∧ p ∈ cache_payloads tr) (sniffed_payloads tr) ∧
    ret.2 ≠ Some ErrNoClue ∧
    ((∃ e, ret = (None, Some (ctxError e)))
     ∨ ret = (None, Some errSniffingTimeout)
     ∨ ret = (None, Some errUnknownContent)
     ∨ ∃ st' p, p ∈ sniffed_payloads tr ∧ (Sniff st' p).1 = ret).
Proof.
  induction m as [|m IH]; intros poll ta cReader st Hta.
  - destruct (ctx_err poll) as [e|] eqn:Hctx.
    + exists (None, Some (ctxError e)), cReader, [], 0%nat.
      split_and!; try done; [|eauto].
      intros [|fuel] Hf; [lia|]. simpl. by rewrite Hctx.
    + exists (None, Some errSniffingTimeout), cReader, [], 0%nat.
      split_and!; try done; [|eauto].
      intros [|fuel] Hf; [lia|]. simpl. rewrite Hctx.
      replace (ta + 1 >? 2) with true by (symmetry; apply Z.gtb_lt; lia). done.
  - destruct (ctx_err poll) as [e|] eqn:Hctx.
    { exists (None, Some (ctxError e)), cReader, [], 0%nat.
      split_and!; try done; [|lia|eauto].
      intros [|fuel] Hf; [lia|]. simpl. by rewrite Hctx. }
    assert ((ta + 1 >? 2) = false) as Hgt.
    { destruct (Z.gtb_spec (ta + 1) 2); [lia | done]. }
    destruct (cached.Cache cReader) as [cR1 payload] eqn:HC.
    assert (∀ st1 evs,
      cache_payloads evs = [payload] →
      Forall (λ p, p ≠ [] ∧ p = payload) (sniffed_payloads evs) →
      ∃ ret cReader' tr n,
        (∀ fuel, (m < fuel)%nat →
           (if buf.Buffer_IsFull payload
            then Some ((None, Some errUnknownContent), cR1, evs)
            else match sniffer_loop Sniff ctx_err fuel (S poll) (ta + 1) cR1 st1 with
                 | Some (ret, cReader, evs') => Some (ret, cReader, evs ++ evs')
                 | None => None
                 end) = Some (ret, cReader', tr)) ∧
        (n ≤ S m)%nat ∧
        cReader' = (cached.Cache_n n cReader).1 ∧
        cache_payloads tr = (cached.Cache_n n cReader).2 ∧
        Forall (λ p, p ≠ [] ∧ p ∈ cache_payloads tr) (sniffed_payloads tr) ∧
        ret.2 ≠ Some ErrNoClue ∧
        ((∃ e, ret = (None, Some (ctxError e)))
         ∨ ret = (None, Some errSniffingTimeout)
         ∨ ret = (None, Some errUnknownContent)
         ∨ ∃ st' p, p ∈ sniffed_payloads tr ∧ (Sniff st' p).1 = ret)) as Hrest.
    { intros st1 evs Hcp Hsp.
      destruct (buf.Buffer_IsFull payload) eqn:Hfull.
      - exists (None, Some errUnknownContent), cR1, evs, 1%nat.
        split_and!; try done; try lia.
        + simpl. by rewrite HC.
        + simpl. by rewrite HC.
        + rewrite Hcp. eapply Forall_impl; [exact Hsp|].
          intros p [? ->]. split; [done | left].
        + auto.
      - destruct (IH (S poll) (ta + 1) cR1 st1 ltac:(lia))
          as (ret & cR' & tr & n & Hrun & Hn & HcR & Hpay & Hsn & Hne & Hcls).
        exists ret, cR', (evs ++ tr), (S n).
        split_and!; try done; try lia.
        + intros fuel Hf. by rewrite (Hrun fuel Hf).
        + simpl. rewrite HC. by destruct (cached.Cache_n n cR1).
        + unfold cache_payloads in *. rewrite omap_app, Hcp, Hpay. simpl.
          rewrite HC. by destruct (cached.Cache_n n cR1).
        + unfold sniffed_payloads, cache_payloads in *. rewrite !omap_app.
          apply Forall_app. split.
          * eapply Forall_impl; [exact Hsp|]. intros p [? ->]. split; [done|].
            rewrite Hcp. left.
          * eapply Forall_impl; [exact Hsn|]. intros p [? Hp]. split; [done|].
            apply elem_of_app. by right.
        + destruct Hcls as [?|[?|[?|(st' & p & Hp & Hs)]]]; auto.
          right. right. right. exists st', p. split; [|done].
          unfold sniffed_payloads. rewrite omap_app. apply elem_of_app. by right. }
    destruct (buf.Buffer_IsEmpty payload) eqn:Hempty.
    + destruct (Hrest st [EvCache payload]) as (ret & cR' & tr & n & Hrun & Hprops);
        [done | by constructor |].
      exists ret, cR', tr, n. split; [|done].
      intros [|fuel] Hf; [lia|]. simpl. rewrite Hctx, Hgt, HC, Hempty. simpl.
      apply Hrun. lia.
    + destruct (Sniff st payload) as [[result err] st1] eqn:HS.
      destruct (decide (err = Some ErrNoClue)) as [->|Herr].
      * destruct (Hrest st1 [EvCache payload; EvSniff payload])
          as (ret & cR' & tr & n & Hrun & Hprops); [done | |].
        { repeat constructor. by apply Buffer_nonempty. }
        exists ret, cR', tr, n. split; [|done].
        intros [|fuel] Hf; [lia|]. simpl.
        rewrite Hctx, Hgt, HC, Hempty. simpl. rewrite HS.
        rewrite decide_False by (intros H; by apply H). apply Hrun. lia.
      * exists (result, err), cR1, [EvCache payload; EvSniff payload], 1%nat.
        split_and!; try done; try lia.
        -- intros [|fuel] Hf; [lia|]. simpl.
           rewrite Hctx, Hgt, HC, Hempty. simpl. rewrite HS.
           by rewrite decide_True.
        -- simpl. by rewrite HC.
        -- simpl. by rewrite HC.
        -- apply Forall_cons. split; [|constructor].
           split; [by apply Buffer_nonempty | left].
        -- right. right. right. exists st, payload. split; [|by rewrite HS].
           simpl. left.
Qed.

End sniffer_any.

(** X16.  [sniffer] returns whatever [Sniff] does — no contract on [Sniff]
    is needed — and three units of fuel always suffice.  It makes at most
    two [Cache] calls; every payload it gives to [Sniff] is a non-empty
    scratch of one of those calls, of at most [buf.Size] bytes.  It never
    returns [common.ErrNoClue]: the result is the context's error, the
    sniffing timeout, unknown content, or exactly what a [Sniff] call
    returned. *)
Theorem sniffer_always_returns {SnifferState : Type}
    (NewSniffer : SnifferState)
    (Sniff : SnifferState → list byte → sniff.SniffReturn * SnifferState)
    (ctx_err : nat → option ctx_error) (cReader : cached.cachedReader) :
  ∃ ret cReader' tr,
    (∀ k : nat, sniff.sniffer NewSniffer Sniff ctx_err (3 + k) cReader
                = Some (ret, cReader', tr)) ∧
    (length (sniff_trace.cache_payloads tr) ≤ 2)%nat ∧
    Forall (λ p, p ≠ [] ∧ (length p ≤ buf.Size)%nat ∧
                 p ∈ sniff_trace.cache_payloads tr)
           (sniff_trace.sniffed_payloads tr) ∧
    ret.2 ≠ Some ErrNoClue ∧
    ((∃ e, ret = (None, Some (ctxError e)))
     ∨ ret = (None, Some errSniffingTimeout)
     ∨ ret = (None, Some errUnknownContent)
     ∨ ∃ st p, p ∈ sniff_trace.sniffed_payloads tr ∧ (Sniff st p).1 = ret).
Proof.
  destruct (sniffer_loop_any Sniff ctx_err 2 0%nat 0 cReader NewSniffer eq_refl)
    as (ret & cR' & tr & n & Hrun & Hn & HcR & Hpay & Hsn & Hne & Hcls).
  exists ret, cR', tr. split_and!; try done.
  - intros k. apply Hrun. lia.
  - rewrite Hpay, Cache_n_length. done.
  - eapply Forall_impl; [exact Hsn|]. intros p [Hp Hin]. split_and!; try done.
    rewrite Hpay in Hin. apply list_elem_of_lookup in Hin as [i Hi].
    destruct (Cache_n_spec n cReader) as (_ & _ & Hbs).
    rewrite (Hbs i p Hi), length_take. lia.
Qed.

(** X17.  Sniffing loses no byte.  Whatever [Sniff] does and however
    [sniffer] returns, the cached reader it leaves behind has taken at most
    two deliveries off the underlying reader, all of them kept in its
    cache: reading it to the end afterwards returns exactly the stream the
    underlying reader emits, from its first byte. *)
Theorem sniffer_keeps_stream {SnifferState : Type}
    (NewSniffer : SnifferState)
    (Sniff : SnifferState → list byte → sniff.SniffReturn * SnifferState)
    (ctx_err : nat → option ctx_error) (rd : pipe.Reader) (k : nat) :
  ∃ ret cReader' tr n,
    sniff.sniffer NewSniffer Sniff ctx_err (3 + k) (cached.wrap rd)
      = Some (ret, cReader', tr) ∧
    (n ≤ 2)%nat ∧
    cached.reader cReader' = drop n rd ∧
    buf.Bytes (cached.cache cReader') = pipe.stream (take n rd) ∧
    ∃ mbs, cached.ReadAll (length (cached.reader cReader') + 2 + k) cReader'
             = Some mbs ∧
           concat (map buf.Bytes mbs) = pipe.stream rd.
Proof.
  destruct (sniffer_loop_any Sniff ctx_err 2 0%nat 0 (cached.wrap rd) NewSniffer eq_refl)
    as (ret & cR' & tr & n & Hrun & Hn & HcR & _).
  exists ret, cR', tr, n.
  destruct (Cache_n_spec n (cached.wrap rd)) as (Hrd & Hc & _).
  rewrite <- HcR in Hrd, Hc. simpl in Hrd, Hc.
  split_and!; try done.
  - apply Hrun. lia.
  - destruct (ReadAll_spec cR' k) as [Hread Hbytes].
    eexists. split; [exact Hread|].
    rewrite Hbytes, Hc, Hrd, <- stream_app. by rewrite take_drop.
Qed.

(** ** The task started by Dispatch *)

Section task_facts.

Import dispatcher dispatch_task.

Context {SnifferState : Type}.
Variable NewSniffer : SnifferState.
Variable Sniff : SnifferState → list byte → sniff.SniffReturn * SnifferState.
Variable ctx_err : nat → option ctx_error.
Variable ParseAddress : string → string.
Variable d : Features.
Hypothesis Sniff_ok : ∀ st p, sniff.Sniff_contract (Sniff st p).1.

(** The sniffing closure runs to its end and calls [routedDispatch]. *)
Lemma sniffAndDispatch_runs (k : nat) (rd : pipe.Reader) (ctx : Context)
    (outbound : Link) (destination : Destination) (request : SniffingRequest)
    (c : Content) :
  content ctx = Some c →
  ∃ evs cR ctx' dest' log,
    sniffAndDispatch NewSniffer Sniff ctx_err ParseAddress d (3 + k) rd ctx
      outbound destination request = Some (Ran evs cR ctx' dest') ∧
    evs = log ++ routedDispatch d ctx' outbound dest' ∧
    (∀ e, In e log → ∃ msg, e = EvLog msg) ∧
    DPort dest' = DPort destination ∧
    DNetwork dest' = DNetwork destination ∧
    inbound ctx' = inbound ctx ∧
    accessMessage ctx' = accessMessage ctx ∧
    ((dest' = destination ∧ outboundTarget ctx' = outboundTarget ctx ∧ log = [])
     ∨ ∃ res, shouldOverride res request = true ∧
              Address dest' = ParseAddress (sniff.Domain res) ∧
              outboundTarget ctx' = Some dest' ∧
              CProtocol <$> content ctx' = Some (sniff.Protocol res)) ∧
    cached_ops.pending cR = pipe.stream rd.
Proof.
  intros Hc.
  destruct (sniffer_loop_any Sniff ctx_err 2 0%nat 0 (cached.wrap rd) NewSniffer eq_refl)
    as (ret & cR & tr & n & Hrun & Hn & HcR & _ & _ & _ & Hcls).
  assert (cached_ops.pending cR = pipe.stream rd) as Hpend.
  { unfold cached_ops.pending.
    destruct (Cache_n_spec n (cached.wrap rd)) as (Hrd & Hb & _).
    rewrite <- HcR in Hrd, Hb. simpl in Hrd, Hb.
    rewrite Hb, Hrd, <- stream_app. by rewrite take_drop. }
  unfold sniffAndDispatch, sniff.sniffer. rewrite (Hrun (3 + k)%nat) by lia.
  destruct ret as [result [e|]].
  - exists (routedDispatch d ctx outbound destination), cR, ctx, destination, [].
    split_and!; try done. left. done.
  - assert (∃ res, result = Some res) as [res ->].
    { destruct Hcls as [[e H]|[H|[H|(st & p & _ & Hs)]]]; try discriminate.
      pose proof (Sniff_ok st p) as Hk. rewrite Hs in Hk.
      destruct Hk as [[res Hk]|[Hk|Hk]]; [|discriminate..].
      injection Hk as ->. eauto. }
    rewrite Hc.
    destruct (shouldOverride res request) eqn:Hov.
    + eexists _, cR, _, _, [EvLog _]. split_and!; try done.
      * intros e [<-|[]]. eauto.
      * right. exists res. done.
    + eexists _, cR, _, _, []. split_and!; try done. left. done.
Qed.

(** Whatever task [Dispatch] started, running it settles the link. *)
Lemma run_task_settles (k : nat) (rd : pipe.Reader) (task : Task) (c : Content) :
  content (task_ctx task) = Some c →
  ∃ evs cR ctx' dest',
    run_task NewSniffer Sniff ctx_err ParseAddress d (3 + k) rd task
      = Some (Ran evs cR ctx' dest') ∧
    match chosen_handler d ctx' dest' with
    | Some h =>
        filter (λ e, is_handover e = true) evs
          = [EvHandlerDispatch h ctx' (task_link task)] ∧
        filter (λ e, is_teardown e = true) evs = []
    | None =>
        filter (λ e, is_handover e = true) evs = [] ∧
        filter (λ e, is_teardown e = true) evs
          = [EvClose (Writer (task_link task));
             EvInterrupt (Reader (task_link task))]
    end ∧
    cached_ops.pending cR = pipe.stream rd.
Proof.
  destruct task as [ctx link destination|ctx link destination request];
    simpl; intros Hc.
  - exists (routedDispatch d ctx link destination), (cached.wrap rd), ctx, destination.
    split; [done|]. split; [|done].
    pose proof (routedDispatch_fate d ctx link destination) as Hf. simpl in Hf.
    destruct (chosen_handler d ctx destination); tauto.
  - destruct (sniffAndDispatch_runs k rd ctx link destination request c Hc)
      as (evs & cR & ctx' & dest' & log & Hrun & -> & Hlog & _ & _ & _ & _ & _ & Hp).
    exists (log ++ routedDispatch d ctx' link dest'), cR, ctx', dest'.
    split; [done|]. split; [|done].
    pose proof (routedDispatch_fate d ctx' link dest') as Hf. simpl in Hf.
    rewrite !filter_app.
    rewrite (filter_logs (P := λ e, is_handover e = true) log Hlog) by done.
    rewrite (filter_logs (P := λ e, is_teardown e = true) log Hlog) by done.
    destruct (chosen_handler d ctx' dest'); tauto.
Qed.

End task_facts.



(** X19.  No link is leaked.  When [Dispatch] has returned a link and
    started its task, running that task — with a [Sniff] that keeps its
    contract — ends with the outbound link either handed to exactly one
    outbound handler (the one of the picked route, else the default one)
    and never closed by the dispatcher, or, when no handler exists, handed
    to nobody, its writer closed and its reader interrupted, once each.
    Either way, the cached reader of the link still owes every byte of the
    uplink stream. *)
Theorem Dispatch_task_settles_link {SnifferState : Type}
    (NewSniffer : SnifferState)
    (Sniff : SnifferState → list byte → sniff.SniffReturn * SnifferState)
    (ctx_err : nat → option ctx_error) (ParseAddress : string → string)
    (d : dispatcher.Features) (k : nat) (rd : pipe.Reader)
    (ctx : dispatcher.Context) (destination : dispatcher.Destination)
    (link : dispatcher.Link) (task : dispatcher.Task) :
  (∀ st p, sniff.Sniff_contract (Sniff st p).1) →
  (dispatcher.Dispatch d ctx destination).1 = dispatcher.Return (Some link) None →
  last (dispatcher.Dispatch d ctx destination).2 = Some (dispatcher.EvGo task) →
  ∃ evs cR ctx' dest',
    dispatch_task.run_task NewSniffer Sniff ctx_err ParseAddress d (3 + k) rd task
      = Some (dispatch_task.Ran evs cR ctx' dest') ∧
    match dispatch_task.chosen_handler d ctx' dest' with
    | Some h =>
        filter (λ e, dispatch_task.is_handover e = true) evs
          = [dispatcher.EvHandlerDispatch h ctx' (dispatch_task.task_link task)] ∧
        filter (λ e, dispatch_task.is_teardown e = true) evs = []
    | None =>
        filter (λ e, dispatch_task.is_handover e = true) evs = [] ∧
        filter (λ e, dispatch_task.is_teardown e = true) evs
          = [dispatcher.EvClose (dispatcher.Writer (dispatch_task.task_link task));
             dispatcher.EvInterrupt (dispatcher.Reader (dispatch_task.task_link task))]
    end ∧
    cached_ops.pending cR = pipe.stream rd.
Proof.
  intros Hok Hret Hlast.
  destruct (Dispatch_task_shape d ctx destination link Hret)
    as (task' & Hlast' & _ & _ & _ & _ & _ & Hcontent & _).
  rewrite Hlast in Hlast'. injection Hlast' as <-.
  apply (run_task_settles NewSniffer Sniff ctx_err ParseAddress d Hok k rd task _
           Hcontent).
Qed.

Lemma Dispatch_task_settles_link_witness :
  ∃ evs cR ctx' dest',
    dispatch_task.run_task tt sniff.Sniff_noclue sniff.ctx_live id
      dispatcher.plain_features 3 [[[x47]]]
      (dispatcher.RoutedDispatch
         (dispatcher.ContextWithContent
            (dispatcher.ContextWithOutbound dispatcher.ctx_user dispatcher.dest_ads)
            dispatcher.new_Content)
         dispatch_task.bare_outbound dispatcher.dest_ads)
    = Some (dispatch_task.Ran evs cR ctx' dest').
Proof.
  destruct (Dispatch_task_settles_link tt sniff.Sniff_noclue sniff.ctx_live id
              dispatcher.plain_features 0 [[[x47]]] dispatcher.ctx_user
              dispatcher.dest_ads dispatch_task.bare_inbound
              (dispatcher.RoutedDispatch
                 (dispatcher.ContextWithContent
                    (dispatcher.ContextWithOutbound dispatcher.ctx_user
                       dispatcher.dest_ads)
                    dispatcher.new_Content)
                 dispatch_task.bare_outbound dispatcher.dest_ads))
    as (evs & cR & ctx' & dest' & Hrun & _).
  - intros st p. right. left. reflexivity.
  - reflexivity.
  - reflexivity.
  - exists evs, cR, ctx', dest'. exact Hrun.
Defined.

(** ** nodeInfoMonitor: ticks that fetch both answers *)

Section tick_more.

Import controller tick_facts.

Context {K : Core}.

Implicit Types (c : Controller K) (w : Remote).

Local Abbreviation sonly := (server_only (K := K)).
Local Abbreviation goeson := (goes_on (K := K)).

Lemma with_server_twice c (s1 s2 : Node K) :
  with_server (with_server c s1) s2 = with_server c s2.
Proof. done. Qed.

Lemma with_server_same c : with_server c (server c) = c.
Proof. by destruct c. Qed.

Lemma sonly_ret {A} (a : A) : sonly (ret a).
Proof. intros c. exists (server c). simpl. by rewrite with_server_same. Qed.

Lemma sonly_return_err {A} (e : error) : sonly (return_err (A := A) e).
Proof. intros c. exists (server c). simpl. by rewrite with_server_same. Qed.

Lemma sonly_get : sonly get.
Proof. intros c. exists (server c). simpl. by rewrite with_server_same. Qed.

Lemma sonly_log_Print e : sonly (log_Print e).
Proof. intros c. exists (server c). simpl. by rewrite with_server_same. Qed.

Lemma sonly_log_Printf msg : sonly (log_Printf msg).
Proof. intros c. exists (server c). simpl. by rewrite with_server_same. Qed.

Lemma sonly_call op : sonly (call op).
Proof. intros c. unfold call. destruct (op (server c)) as [e s]. by exists s. Qed.

Lemma sonly_bind {A B} (m : M A) (k : A → M B) :
  sonly m → (∀ a, sonly (k a)) → sonly (bind m k).
Proof.
  intros Hm Hk c. unfold bind. destruct (Hm c) as [s1 H1].
  destruct (m c) as [[[a|e] c1] l]; simpl in *; [|by exists s1].
  destruct (Hk a c1) as [s2 H2]. destruct (k a c1) as [[r c2] l2]. simpl in *.
  exists s2. by rewrite H2, H1.
Qed.

Lemma sonly_as_result (m : M unit) : sonly m → sonly (as_result m).
Proof.
  intros Hm c. unfold as_result. destruct (Hm c) as [s H].
  exists s. by destruct (m c) as [[[a|e] c1] l].
Qed.

Lemma sonly_checked (m : M (option error)) : sonly m → sonly (checked m).
Proof.
  intros Hm. apply sonly_bind; [done|]. intros [e|]; [|apply sonly_ret].
  apply sonly_bind; [apply sonly_log_Print | intros _; apply sonly_return_err].
Qed.

Lemma sonly_propagated (m : M (option error)) : sonly m → sonly (propagated m).
Proof.
  intros Hm. apply sonly_bind; [done|]. intros [e|];
    [apply sonly_return_err | apply sonly_ret].
Qed.

Lemma sonly_logged (m : M (option error)) : sonly m → sonly (logged m).
Proof.
  intros Hm. apply sonly_bind; [done|]. intros [e|];
    [apply sonly_log_Print | apply sonly_ret].
Qed.

Lemma sonly_removeOldTag oldtag : sonly (removeOldTag oldtag).
Proof.
  apply sonly_as_result.
  apply sonly_bind; [apply sonly_propagated, sonly_call | intros _].
  apply sonly_bind; [apply sonly_propagated, sonly_call | intros _].
  apply sonly_ret.
Qed.

Lemma sonly_addNewTag n : sonly (addNewTag n).
Proof.
  apply sonly_as_result. apply sonly_bind; [apply sonly_get | intros c0].
  destruct (InboundBuilder K _ n _); [|apply sonly_return_err].
  apply sonly_bind; [apply sonly_propagated, sonly_call | intros _].
  destruct (OutboundBuilder K n); [|apply sonly_return_err].
  apply sonly_bind; [apply sonly_propagated, sonly_call | intros _].
  apply sonly_ret.
Qed.

Lemma sonly_addNewUser us n : sonly (addNewUser us n).
Proof.
  apply sonly_as_result. apply sonly_bind.
  - repeat (destruct (String.eqb _ _));
      try destruct (EnableVless n); (apply sonly_ret || apply sonly_return_err).
  - intros users. apply sonly_bind; [apply sonly_propagated, sonly_call | intros _].
    apply sonly_log_Printf.
Qed.

Lemma goeson_ret {A} (a : A) : goeson (ret a).
Proof. intros c. unfold ret. eauto. Qed.

Lemma goeson_get : goeson get.
Proof. intros c. unfold get. eauto. Qed.

Lemma goeson_log_Printf msg : goeson (log_Printf msg).
Proof. intros c. unfold log_Printf. eauto. Qed.

Lemma goeson_bind {A B} (m : M A) (k : A → M B) :
  goeson m → (∀ a, goeson (k a)) → goeson (bind m k).
Proof.
  intros Hm Hk c. unfold bind. destruct (Hm c) as (a & c1 & l1 & ->).
  destruct (Hk a c1) as (b & c2 & l2 & ->). eauto.
Qed.

Lemma goeson_logged (m : M (option error)) : goeson m → goeson (logged m).
Proof.
  intros Hm. apply goeson_bind; [done|]. intros [e|]; [|apply goeson_ret].
  intros c. unfold log_Print. eauto.
Qed.

Lemma bind_inl_inv {A B} (m : M A) (k : A → M B) c b c2 l :
  bind m k c = (inl b, c2, l) →
  ∃ a c1 l1 l2, m c = (inl a, c1, l1) ∧ k a c1 = (inl b, c2, l2) ∧ l = l1 ++ l2.
Proof.
  unfold bind. destruct (m c) as [[[a|e] c1] l1]; [|discriminate].
  destruct (k a c1) as [[r c2'] l2] eqn:Hk. intros [= -> -> <-]. eauto 10.
Qed.

Lemma bind_bind_get {A B} (f : Controller K → M A) (k : A → M B) c :
  bind (bind get f) k c = bind (f c) k c.
Proof.
  unfold bind at 1 3. rewrite bind_get. done.
Qed.

Lemma sonly_inv {A} (m : M A) c r c1 l :
  sonly m → m c = (r, c1, l) → ∃ s, c1 = with_server c s.
Proof. intros Hm H. destruct (Hm c) as [s Hs]. rewrite H in Hs. eauto. Qed.

(** The user update of a tick without node change: it goes on to the end
    whatever the core answers, and touches the core only. *)
Lemma diff_block order (newNodeInfo : NodeInfo) (newUserInfo : list UserInfo) :
  let block : M (K := K) unit :=
    (bind get (λ c,
       let '(deleted, added) :=
         controller_diff.compareUserList_in_order order (userList c) newUserInfo in
       bind (if Nat.ltb 0 (length deleted)
             then logged (call (removeUsers K (map Email deleted) (tag_of (nodeInfo c))))
             else ret tt)
         (λ _, bind (if Nat.ltb 0 (length added)
                     then bind (logged (addNewUser added (nodeInfo c)))
                            (λ _, logged (call (AddInboundLimiter K (tag_of (nodeInfo c))
                                            (NI_SpeedLimit newNodeInfo) added)))
                     else ret tt)
                 (λ _, log_Printf (pretty (Z.of_nat (length deleted)) +:+ " user deleted, "
                                   +:+ pretty (Z.of_nat (length added)) +:+ " user added"))))) in
  goeson block ∧ sonly block.
Proof.
  split.
  - apply goeson_bind; [apply goeson_get | intros c].
    destruct (controller_diff.compareUserList_in_order _ _ _) as [deleted added].
    apply goeson_bind.
    { destruct (Nat.ltb _ _); [apply goeson_logged, goes_on_call | apply goeson_ret]. }
    intros _. apply goeson_bind; [|intros _; apply goeson_log_Printf].
    destruct (Nat.ltb _ _); [|apply goeson_ret].
    apply goeson_bind; [apply goeson_logged, goes_on_as_result | intros _].
    apply goeson_logged, goes_on_call.
  - apply sonly_bind; [apply sonly_get | intros c].
    destruct (controller_diff.compareUserList_in_order _ _ _) as [deleted added].
    apply sonly_bind.
    { destruct (Nat.ltb _ _); [apply sonly_logged, sonly_call | apply sonly_ret]. }
    intros _. apply sonly_bind; [|intros _; apply sonly_log_Printf].
    destruct (Nat.ltb _ _); [|apply sonly_ret].
    apply sonly_bind; [apply sonly_logged, sonly_addNewUser | intros _].
    apply sonly_logged, sonly_call.
Qed.

(** A tick that fetches the cached node info and a user list. *)
Lemma body_same_node order w c (us : list UserInfo) :
  GetNodeInfo w = inl (nodeInfo c) → GetUserList w = inl us →
  ∃ s l, nodeInfoMonitor_body order w c
         = (inl tt, with_caches (with_server c s) (nodeInfo c) us, l).
Proof.
  intros HN HU. unfold nodeInfoMonitor_body. rewrite HN, HU.
  rewrite bind_get, bool_decide_true by done. simpl negb. cbv iota.
  rewrite bind_ret.
  destruct (checkCert_state w c) as [l1 Hl1].
  rewrite (bind_step _ _ _ _ _ _ Hl1). cbv iota.
  destruct (diff_block order (nodeInfo c) us) as [Hgo Hso].
  match goal with |- context [bind ?b (λ _, set_userList us) c] => set (block := b) end.
  destruct (Hgo c) as (a & c1 & l2 & Hb).
  destruct (sonly_inv _ _ _ _ _ Hso Hb) as [s ->].
  rewrite (bind_step _ _ _ _ _ _ Hb). simpl.
  exists s. eexists. destruct a. reflexivity.
Qed.

(** The node change at the head of a tick, when it goes through: the cached
    node info is the fetched one. *)
Lemma node_change_post (newNodeInfo : NodeInfo) c (changed : bool) c1 l :
  (if negb (bool_decide (nodeInfo c = newNodeInfo))
   then bind (checked (removeOldTag (tag_of (nodeInfo c))))
          (λ _, bind (checked (addNewTag newNodeInfo))
                  (λ _, bind (set_nodeInfo newNodeInfo)
                          (λ _, bind (checked (call (DeleteInboundLimiter K
                                                       (tag_of (nodeInfo c)))))
                                  (λ _, ret true))))
   else ret false) c = (inl changed, c1, l) →
  ∃ s, c1 = with_caches (with_server c s) newNodeInfo (userList c).
Proof.
  case_bool_decide as Hsame; simpl negb; cbv iota.
  - intros [= <- <- <-]. exists (server c). subst newNodeInfo. by destruct c.
  - intros H.
    apply bind_inl_inv in H as (? & ca & ? & ? & Ha & H & _).
    apply (sonly_inv _ _ _ _ _ (sonly_checked _ (sonly_removeOldTag _))) in Ha as [sa ->].
    apply bind_inl_inv in H as (? & cb & ? & ? & Hb & H & _).
    apply (sonly_inv _ _ _ _ _ (sonly_checked _ (sonly_addNewTag _))) in Hb as [sb ->].
    apply bind_inl_inv in H as (? & cc & ? & ? & Hc & H & _).
    injection Hc as _ <- _.
    apply bind_inl_inv in H as (? & cd & ? & ? & Hd & H & _).
    apply (sonly_inv _ _ _ _ _ (sonly_checked _ (sonly_call _))) in Hd as [sd ->].
    injection H as _ <- _. by exists sd.
Qed.

(** A tick that returns nil has cached what it fetched. *)
Lemma body_success order w c (c' : Controller K) l :
  nodeInfoMonitor_body order w c = (inl tt, c', l) →
  ∃ newNodeInfo newUserInfo s,
    GetNodeInfo w = inl newNodeInfo ∧ GetUserList w = inl newUserInfo ∧
    c' = with_caches (with_server c s) newNodeInfo newUserInfo.
Proof.
  unfold nodeInfoMonitor_body.
  destruct (GetNodeInfo w) as [newNodeInfo|e]; [|discriminate].
  destruct (GetUserList w) as [newUserInfo|e] eqn:HU.
  - rewrite bind_get. intros H.
    apply bind_inl_inv in H as (changed & c1 & ? & ? & Hch & H & _).
    apply node_change_post in Hch as [s1 ->].
    apply bind_inl_inv in H as ([] & c2 & ? & ? & Hcert & H & _).
    destruct (checkCert_state w (with_caches (with_server c s1) newNodeInfo (userList c)))
      as [lc Hlc]. rewrite Hlc in Hcert. injection Hcert as <- _.
    apply bind_inl_inv in H as ([] & c3 & ? & ? & Hblk & H & _).
    injection H as <- _.
    exists newNodeInfo, newUserInfo.
    assert (∃ s, c3 = with_server
                        (with_caches (with_server c s1) newNodeInfo (userList c)) s)
      as [s3 ->].
    { destruct changed.
      - eapply sonly_inv; [|exact Hblk].
        apply sonly_bind; [apply sonly_checked, sonly_addNewUser | intros _].
        apply sonly_bind; [apply sonly_get | intros c0].
        apply sonly_checked, sonly_call.
      - eapply sonly_inv; [|exact Hblk].
        apply (diff_block order newNodeInfo newUserInfo). }
    exists s3. done.
  - rewrite bind_get. intros H.
    apply bind_inl_inv in H as (changed & c1 & ? & ? & _ & H & _).
    apply bind_inl_inv in H as ([] & c2 & ? & ? & _ & H & _).
    unfold bind, log_Print, return_err in H. simpl in H. discriminate.
Qed.

End tick_more.

(** X20.  A tick without node change cannot fail once both remote calls
    have answered: whatever [removeUsers], [addUsers] and the limiter
    return (their errors are only logged), [nodeInfoMonitor] returns nil
    and replaces the cached user list by the fetched one; the cached node
    info, the configuration and the periodic tasks are untouched, only the
    core state may have changed. *)
Theorem nodeInfoMonitor_same_node_adopts_users {K : controller.Core}
    (order : gmap UserInfo byte → list UserInfo)
    (w : controller.Remote) (c : controller.Controller K) (us : list UserInfo) :
  controller.GetNodeInfo w = inl (controller.nodeInfo c) →
  controller.GetUserList w = inl us →
  ∃ s, (controller.nodeInfoMonitor order w c).1
       = (None, tick_facts.with_caches (tick_facts.with_server c s)
                  (controller.nodeInfo c) us).
Proof.
  intros HN HU. destruct (body_same_node order w c us HN HU) as (s & l & Hb).
  exists s. unfold controller.nodeInfoMonitor. by rewrite Hb.
Qed.

Lemma nodeInfoMonitor_same_node_adopts_users_witness :
  ∃ s, (controller.nodeInfoMonitor controller_diff.keys
          tick_facts.remote_users_BC tick_facts.stuck_controller).1
       = (None, tick_facts.with_caches
                  (tick_facts.with_server tick_facts.stuck_controller s)
                  controller.node_443 [user_B; user_C]).
Proof.
  apply (nodeInfoMonitor_same_node_adopts_users controller_diff.keys
           tick_facts.remote_users_BC tick_facts.stuck_controller [user_B; user_C]);
    reflexivity.
Defined.

(** X21.  A tick that returns nil has fetched both answers and cached them:
    afterwards the cached node info is the one [GetNodeInfo] returned and
    the cached user list is the one [GetUserList] returned; configuration
    and periodic tasks are as before. *)
Theorem nodeInfoMonitor_success_caches_fetched {K : controller.Core}
    (order : gmap UserInfo byte → list UserInfo)
    (w : controller.Remote) (c : controller.Controller K) :
  (controller.nodeInfoMonitor order w c).1.1 = None →
  ∃ newNodeInfo newUserInfo s,
    controller.GetNodeInfo w = inl newNodeInfo ∧
    controller.GetUserList w = inl newUserInfo ∧
    (controller.nodeInfoMonitor order w c).1.2
    = tick_facts.with_caches (tick_facts.with_server c s) newNodeInfo newUserInfo.
Proof.
  unfold controller.nodeInfoMonitor.
  destruct (controller.nodeInfoMonitor_body order w c) as [[[[]|e] c'] l] eqn:Hb;
    [|discriminate].
  intros _. destruct (body_success order w c c' l Hb) as (n & us & s & HN & HU & ->).
  exists n, us, s. done.
Qed.

Lemma nodeInfoMonitor_success_caches_fetched_witness :
  ∃ newNodeInfo newUserInfo s,
    controller.GetNodeInfo tick_facts.remote_moved = inl newNodeInfo ∧
    controller.GetUserList tick_facts.remote_moved = inl newUserInfo ∧
    (controller.nodeInfoMonitor controller_diff.keys tick_facts.remote_moved
       controller.running_controller).1.2
    = tick_facts.with_caches
        (tick_facts.with_server controller.running_controller s)
        newNodeInfo newUserInfo.
Proof.
  apply (nodeInfoMonitor_success_caches_fetched controller_diff.keys
           tick_facts.remote_moved controller.running_controller).
  by vm_compute.
Defined.

(** X22.  A tick is a no-op on the core when nothing changed: if the panel
    returns the cached node info and a user list with the same records as
    the cached one (in any order), no core operation is called — the core
    state is exactly as before — the tick returns nil, and its last log
    line is ["0 user deleted, 0 user added"]. *)
Theorem nodeInfoMonitor_nothing_changed {K : controller.Core}
    (order : gmap UserInfo byte → list UserInfo)
    (w : controller.Remote) (c : controller.Controller K) (us : list UserInfo) :
  controller_diff.range_order order →
  controller.GetNodeInfo w = inl (controller.nodeInfo c) →
  controller.GetUserList w = inl us →
  (∀ u, u ∈ controller.userList c ↔ u ∈ us) →
  (controller.nodeInfoMonitor order w c).1
    = (None, tick_facts.with_caches c (controller.nodeInfo c) us) ∧
  last (controller.nodeInfoMonitor order w c).2
    = Some "0 user deleted, 0 user added".
Proof.
  intros Hord HN HU Hsame.
  unfold controller.nodeInfoMonitor, controller.nodeInfoMonitor_body.
  rewrite HN, HU.
  rewrite bind_get, bool_decide_true by done. simpl negb. cbv iota.
  rewrite bind_ret.
  destruct (checkCert_state w c) as [l1 Hl1].
  rewrite (bind_step _ _ _ _ _ _ Hl1). cbv iota.
  rewrite bind_bind_get.
  rewrite (compareUserList_same_any order _ us Hord Hsame).
  cbn. split; [done|]. by rewrite last_snoc.
Qed.

Lemma nodeInfoMonitor_nothing_changed_witness :
  (controller.nodeInfoMonitor controller_diff.keys tick_facts.remote_users_BC
     (tick_facts.with_caches controller.running_controller controller.node_443
        [user_C; user_B])).1
  = (None, tick_facts.with_caches controller.running_controller
             controller.node_443 [user_B; user_C]).
Proof.
  apply (nodeInfoMonitor_nothing_changed controller_diff.keys
           tick_facts.remote_users_BC
           (tick_facts.with_caches controller.running_controller
              controller.node_443 [user_C; user_B]) [user_B; user_C]).
  - intros m. reflexivity.
  - reflexivity.
  - reflexivity.
  - intros u. simpl. rewrite !elem_of_cons, !elem_of_nil. tauto.
Defined.

(** X23.  A node change stops at its first failing step.  When the fetched
    node info differs from the cached one and removing the old inbound
    fails, the tick logs that error and returns it at once: the old
    outbound is not removed, no new tag is added, the caches keep the old
    node info and user list, and the user list is not even fetched.  When
    the inbound was removed but removing the old outbound fails, the tick
    stops in the same way, the inbound staying removed. *)
Theorem nodeInfoMonitor_node_change_stops {K : controller.Core}
    (order : gmap UserInfo byte → list UserInfo)
    (w : controller.Remote) (c : controller.Controller K)
    (newNodeInfo : NodeInfo) (e : error) (s : controller.Node K) :
  controller.GetNodeInfo w = inl newNodeInfo →
  newNodeInfo ≠ controller.nodeInfo c →
  (controller.removeInbound K (controller.tag_of (controller.nodeInfo c))
     (controller.server c) = (Some e, s)
   ∨ ∃ s1, controller.removeInbound K (controller.tag_of (controller.nodeInfo c))
             (controller.server c) = (None, s1) ∧
           controller.removeOutbound K (controller.tag_of (controller.nodeInfo c)) s1
             = (Some e, s)) →
  controller.nodeInfoMonitor order w c
  = (Some e, tick_facts.with_server c s, [error_string e]).
Proof.
  intros HN Hne Hfail.
  unfold controller.nodeInfoMonitor, controller.nodeInfoMonitor_body.
  rewrite HN. rewrite bind_get, bool_decide_false by (intros H; by apply Hne).
  simpl negb. cbv iota.
  unfold controller.removeOldTag, controller.checked, controller.as_result,
    controller.propagated, controller.bind, controller.call, controller.ret,
    controller.return_err, controller.log_Print. simpl.
  destruct Hfail as [-> | (s1 & -> & Hout)]; simpl; [done|].
  rewrite Hout. done.
Qed.

Lemma nodeInfoMonitor_node_change_stops_witness :
  controller.nodeInfoMonitor controller_diff.keys tick_facts.remote_moved
    tick_facts.stuck_controller
  = (Some (apiError "core down"),
     tick_facts.with_server tick_facts.stuck_controller tt, ["core down"]).
Proof.
  apply (nodeInfoMonitor_node_change_stops controller_diff.keys
           tick_facts.remote_moved tick_facts.stuck_controller
           controller.node_8443 (apiError "core down") tt).
  - reflexivity.
  - discriminate.
  - left. reflexivity.
Defined.

(** X24.  [addNewUser] on a node whose type is none of ["V2ray"],
    ["Trojan"], ["Shadowsocks"] returns the error ["Unsupported node type: "
    + type] without calling the core and without logging.  On a node of one
    of the three types it calls [addUsers] once, under the tag
    ["{NodeType}_{Port}"], with the users built for that type (VLESS or
    VMess users for V2ray, by [EnableVless]), and returns what [addUsers]
    returned, logging ["Added n new users"] only on success. *)
Theorem addNewUser_node_types {K : controller.Core}
    (userInfo : list UserInfo) (nodeInfo : NodeInfo)
    (c : controller.Controller K) :
  (NodeType nodeInfo ∉ ["V2ray"; "Trojan"; "Shadowsocks"] →
   controller.addNewUser userInfo nodeInfo c
   = (inl (Some (apiError ("Unsupported node type: " +:+ NodeType nodeInfo))), c, [])) ∧
  (NodeType nodeInfo ∈ ["V2ray"; "Trojan"; "Shadowsocks"] →
   let users :=
     if String.eqb (NodeType nodeInfo) "V2ray" then
       if EnableVless nodeInfo then controller.buildVlessUser K userInfo
       else controller.buildVmessUser K userInfo (AlterID nodeInfo)
     else if String.eqb (NodeType nodeInfo) "Trojan" then
       controller.buildTrojanUser K userInfo
     else controller.buildSSUser K userInfo in
   controller.addNewUser userInfo nodeInfo c
   = (inl (controller.addUsers K users (controller.tag_of nodeInfo)
             (controller.server c)).1,
      tick_facts.with_server c
        (controller.addUsers K users (controller.tag_of nodeInfo)
           (controller.server c)).2,
      match (controller.addUsers K users (controller.tag_of nodeInfo)
               (controller.server c)).1 with
      | Some _ => []
      | None => ["Added " +:+ pretty (Z.of_nat (length userInfo)) +:+ " new users"]
      end)).
Proof.
  unfold controller.addNewUser, controller.as_result, controller.propagated,
    controller.bind, controller.call, controller.ret, controller.return_err,
    controller.log_Printf.
  split.
  - rewrite !not_elem_of_cons. intros (H1 & H2 & H3 & _).
    apply String.eqb_neq in H1, H2, H3. rewrite H1, H2, H3. done.
  - rewrite !elem_of_cons, elem_of_nil. intros [H|[H|[H|[]]]]; rewrite H; simpl.
    + destruct (EnableVless nodeInfo); simpl;
        destruct (controller.addUsers K _ _ _) as [[e|] s]; reflexivity.
    + destruct (controller.addUsers K _ _ _) as [[e|] s]; reflexivity.
    + destruct (controller.addUsers K _ _ _) as [[e|] s]; reflexivity.
Qed.

Lemma addNewUser_node_types_witness :
  controller.addNewUser [user_A] tick_facts.node_socks controller.running_controller
  = (inl (Some (apiError "Unsupported node type: Socks")),
     controller.running_controller, []).
Proof.
  destruct (addNewUser_node_types [user_A] tick_facts.node_socks
              controller.running_controller) as [Hbad _].
  apply Hbad. apply (bool_decide_unpack _). by vm_compute.
Defined.

(** ** userInfoMonitor *)

Section userInfoMonitor_facts.

Import controller reporting.

Variable R : Reporter.

Lemma traffic_loop (us : list UserInfo) : ∀ (acc : list UserTraffic) (s : Stats R),
  foldl (traffic_step R) (acc, s) us
  = (acc ++ map traffic_record (filter has_traffic (readings R us s).1),
     (readings R us s).2).
Proof.
  induction us as [|user us IH]; intros acc s; simpl.
  - by rewrite app_nil_r.
  - destruct (getTraffic R (Email user) s) as [[up down] s1] eqn:HT.
    specialize (IH (if (up >? 0) || (down >? 0)
                    then acc ++ [{| UT_UID := UID user; UT_Email := Email user;
                                    Upload := up; Download := down |}]
                    else acc) s1).
    destruct (readings R us s1) as [rest s2]. simpl in *.
    rewrite filter_cons.
    destruct ((up >? 0) || (down >? 0)) eqn:Hpos.
    + rewrite IH, decide_True, <- app_assoc; [done|].
      unfold has_traffic. simpl.
      apply orb_true_iff in Hpos as [H|H]; apply Z.gtb_lt in H; lia.
    + rewrite IH, decide_False; [done|].
      unfold has_traffic. simpl.
      apply orb_false_iff in Hpos as [H1 H2].
      destruct (Z.gtb_spec up 0), (Z.gtb_spec down 0); try discriminate. lia.
Qed.

Lemma filter_logged_error (err : option error) :
  filter (λ e : Event R, is_report e = true) (logged_error err) = [].
Proof. by destruct err. Qed.

End userInfoMonitor_facts.

(** X25.  [userInfoMonitor] never fails: it returns nil whatever the probe,
    the counters and the panel answer.  Its report calls are, in this
    order: the node status, always, even when the probe failed; the user
    traffic, only when some cached user has an uplink or downlink counter
    above zero, and then with exactly those users, in the order of the
    cached list, each with the figures read for it — every cached user's
    counters being read once, reported or not; and the online users, only
    when the online table could be read and is not empty. *)
Theorem userInfoMonitor_reports {K : controller.Core} (R : reporting.Reporter)
    (c : controller.Controller K) (s : reporting.Stats R) :
  let run := reporting.userInfoMonitor R c s in
  let read := reporting.readings R (controller.userList c) s in
  let positive :=
    map reporting.traffic_record (filter reporting.has_traffic read.1) in
  let online :=
    reporting.GetOnlineDevice R (controller.tag_of (controller.nodeInfo c)) read.2 in
  let '(CPU, Mem, Disk, Uptime, _) := reporting.GetSystemInfo R in
  run.1.1 = None ∧
  run.1.2 = online.2 ∧
  filter (λ e, reporting.is_report e = true) run.2
  = reporting.EvReportNodeStatus
      {| reporting.CPU := CPU; reporting.Mem := Mem; reporting.Disk := Disk;
         reporting.Uptime := Uptime |}
    :: match positive with
       | [] => []
       | _ :: _ => [reporting.EvReportUserTraffic positive]
       end
    ++ match online.1 with
       | inl (o :: l) => [reporting.EvReportNodeOnlineUsers (o :: l)]
       | _ => []
       end.
Proof.
  unfold reporting.userInfoMonitor.
  destruct (reporting.GetSystemInfo R) as [[[[CPU Mem] Disk] Uptime] err].
  rewrite traffic_loop. simpl.
  set (positive := map reporting.traffic_record
                     (filter reporting.has_traffic
                        (reporting.readings R (controller.userList c) s).1)).
  destruct (reporting.GetOnlineDevice R _ _) as [[onlineDevice|e] s'] eqn:HO;
    simpl; (split; [done|]); (split; [done|]);
    rewrite filter_app, filter_logged_error; cbn [app];
    rewrite filter_cons, decide_True by done; f_equal;
    rewrite !filter_app, filter_logged_error; cbn [app].
  - destruct positive as [|x positive]; destruct onlineDevice as [|o l]; simpl;
      rewrite ?filter_cons, ?decide_True, ?filter_logged_error by done; done.
  - destruct positive as [|x positive]; simpl;
      rewrite ?filter_cons, ?decide_True, ?decide_False, ?filter_logged_error by done;
      done.
Qed.
